(** * pycomby: a shallow embedding of the structural search-and-replace engine

    The development follows [src/pycomby.py] function by function:
    pattern compilation ([compile_pattern], [make_literal_token],
    [parse_hole]), the backtracking matcher ([match_first], [match_from]),
    the balanced scanner ([match_balanced]), the template renderer
    ([render_template]) and the two drivers ([pycomby], [pycomby_single]).

    Modelling choices.
    - A Python [str] is a [list ascii]; the character classes below are the
      ones Python uses on the 7-bit range, which is the range the
      development is about.
    - A bindings dictionary is a [gmap] from names to optional strings.
    - The regular expressions the program builds itself (literal tokens,
      the three regex macros) run on a small backtracking engine, [Re.run],
      written after the semantics of Python's [re] for the constructs they
      use.  Regular expressions supplied by the user inside a hole, and the
      path operations of [pathlib], belong to the Python library: they are
      the fields of a [host] record that the host-dependent functions
      take as their first argument.
    - Python exceptions are the [Raise] case of [result]; an exception of
      [re.compile] that the program does not catch is carried through by
      the name of its class.
    - The limit of CPython on conversions between [int] and [str]
      ([sys.get_int_max_str_digits()], 4300 digits by default) is a field
      of the host.
    - The [while True] loop of [pycomby] is iterated by a fuel counter;
      running out of fuel is reported as [None] and never confused with a
      result. *)

From Stdlib Require Import ZArith Lia Ascii String DecimalString DecimalPos.
From stdpp Require Import gmap strings list fin_maps.

Set Default Proof Using "Type".
Local Open Scope nat_scope.

(** ** Strings *)

Abbreviation str := (list ascii).

(** A literal of the source, as a list of characters. *)
Definition py (s : string) : str := list_ascii_of_string s.

Module Char.

Definition code (c : ascii) : nat := nat_of_ascii c.

Definition in_range (lo hi : nat) (c : ascii) : bool :=
  (lo <=? code c) && (code c <=? hi).

(** [str.isspace] and the class [\s]: TAB..CR, FS..US and the space. *)
Definition is_space (c : ascii) : bool :=
  in_range 9 13 c || in_range 28 32 c.

(** The class [\d] and the set [[0-9]]. *)
Definition is_digit (c : ascii) : bool := in_range 48 57 c.

Definition is_upper (c : ascii) : bool := in_range 65 90 c.
Definition is_lower (c : ascii) : bool := in_range 97 122 c.

(** The class [\w]. *)
Definition is_word (c : ascii) : bool :=
  is_upper c || is_lower c || is_digit c || (code c =? 95).

Definition eqb (a b : ascii) : bool := Ascii.eqb a b.

Definition to_upper (c : ascii) : ascii :=
  if is_lower c then ascii_of_nat (code c - 32) else c.
Definition to_lower (c : ascii) : ascii :=
  if is_upper c then ascii_of_nat (code c + 32) else c.

End Char.

Module PyStr.

(** [s[i:j]] for non-negative [i] and [j]. *)
Definition slice (s : str) (i j : nat) : str := take (j - i) (drop i s).

Fixpoint lstrip (s : str) : str :=
  match s with
  | c :: t => if Char.is_space c then lstrip t else s
  | [] => []
  end.

Definition rstrip (s : str) : str := rev (lstrip (rev s)).

(** [s.strip()] *)
Definition strip (s : str) : str := rstrip (lstrip s).

(** [s.split(sep, 1)] for a one-character [sep] that occurs in [s];
    [None] when [sep not in s]. *)
Fixpoint split_once (sep : ascii) (s : str) : option (str * str) :=
  match s with
  | [] => None
  | c :: t =>
      if Char.eqb c sep then Some ([], t)
      else match split_once sep t with
           | Some (l, r) => Some (c :: l, r)
           | None => None
           end
  end.

(** [s.split(sep)] for a one-character [sep]. *)
Fixpoint split (sep : ascii) (s : str) : list str :=
  match s with
  | [] => [[]]
  | c :: t =>
      if Char.eqb c sep then [] :: split sep t
      else match split sep t with
           | p :: ps => (c :: p) :: ps
           | [] => [[c]]
           end
  end.

(** [s.endswith(c)] for a one-character [c]. *)
Definition endswith (s : str) (c : ascii) : bool :=
  match last s with
  | Some d => Char.eqb d c
  | None => false
  end.

Definition eqb (a b : str) : bool := bool_decide (a = b).

(** Truthiness of a string: non-empty. *)
Definition truthy (s : str) : bool :=
  match s with [] => false | _ => true end.

End PyStr.

(** ** The regular expressions the program builds

    Only the constructs that occur in the program's own patterns are
    represented.  [run r s k] tries the alternatives of [r] on [s] in
    priority order (greedy first) and hands the rest of the input to the
    continuation [k]; the result is the number of characters consumed by
    the first alternative on which everything succeeds. *)

Module Re.

Inductive re : Type :=
| Eps                                  (* the empty pattern *)
| Chr (c : ascii)                      (* an escaped literal character *)
| Cls (p : ascii -> bool)              (* a class or a set *)
| Cat (a b : re)
| Opt (a : re)                         (* a? or (?:a)?, greedy *)
| Star (p : ascii -> bool)             (* p*, greedy *)
| Dollar.                              (* $ without MULTILINE *)

(** [p+] is [pp*]. *)
Definition Plus (p : ascii -> bool) : re := Cat (Cls p) (Star p).

Fixpoint run (r : re) (s : str) (k : str -> option nat) : option nat :=
  match r with
  | Eps => k s
  | Chr c =>
      match s with
      | d :: t => if Char.eqb d c then S <$> k t else None
      | [] => None
      end
  | Cls p =>
      match s with
      | d :: t => if p d then S <$> k t else None
      | [] => None
      end
  | Cat a b => run a s (fun s' => run b s' k)
  | Opt a =>
      match run a s k with
      | Some n => Some n
      | None => k s
      end
  | Star p =>
      (fix star (s : str) : option nat :=
         match s with
         | d :: t =>
             if p d then
               match star t with
               | Some n => Some (S n)
               | None => k s
               end
             else k s
         | [] => k s
         end) s
  | Dollar =>
      (* the end of the string, or just before a newline that ends it *)
      match s with
      | [] => k s
      | [d] => if Char.eqb d "010" then k s else None
      | _ => None
      end
  end.

(** [regex.match(text, i)]: the end position of the match, if any. *)
Definition match_at (r : re) (text : str) (i : nat) : option nat :=
  (fun n => i + n) <$> run r (drop i text) (fun _ => Some 0).

(** [regex.match(s)] as a truth value. *)
Definition matches (r : re) (s : str) : bool :=
  bool_decide (is_Some (run r s (fun _ => Some 0))).

(** [regex.fullmatch(s)] as a truth value. *)
Definition fullmatch (r : re) (s : str) : bool :=
  bool_decide (is_Some (run r s (fun s' => match s' with [] => Some 0 | _ => None end))).

End Re.

(** A compiled user regex of the host: all the program uses is
    [fullmatch]. *)
Record re_Pattern : Type := { re_fullmatch : str -> bool }.

(** ** Pattern representation *)

Record LiteralToken : Type := {
  lit_text : str;
  lit_regex : Re.re
}.

Record HoleToken : Type := {
  hole_name : option str;          (* None for anonymous *)
  hole_macro : option str;         (* e.g. "word", "digit", "()", "{}" *)
  hole_regex : option re_Pattern;  (* explicit ~regex constraint *)
  hole_optional : bool             (* trailing ? *)
}.

Inductive Token : Type :=
| Literal (l : LiteralToken)
| Hole (h : HoleToken).

(** What [parse_hole] raises: its two [ValueError]s, and an exception of
    [re.compile] that its [except re.PatternError] does not catch, by the
    name of its class. *)
Inductive error : Type :=
| UnknownMacro (m : str)
| InvalidRegex (p : str)
| Uncaught (exc : str).

Inductive result (A : Type) : Type :=
| Ok (a : A)
| Raise (e : error).
Arguments Ok {A} a.
Arguments Raise {A} e.

(** ** Macros *)

Inductive regex_macro : Type := digit | word | num.

Definition REGEX_MACROS (m : str) : option regex_macro :=
  if PyStr.eqb m (py "digit") then Some digit
  else if PyStr.eqb m (py "word") then Some word
  else if PyStr.eqb m (py "num") then Some num
  else None.

Definition is_sign (c : ascii) : bool := Char.eqb c "-" || Char.eqb c "+".
Definition is_e (c : ascii) : bool := Char.eqb c "e" || Char.eqb c "E".

(** The pattern text of each macro:
    [\d+], [\w+] and [[-+]?[0-9]+(?:\.[0-9]+)?(?:[eE][-+]?[0-9]+)?]. *)
Definition macro_source (m : regex_macro) : Re.re :=
  match m with
  | digit => Re.Plus Char.is_digit
  | word => Re.Plus Char.is_word
  | num =>
      Re.Cat (Re.Opt (Re.Cls is_sign))
        (Re.Cat (Re.Plus Char.is_digit)
           (Re.Cat (Re.Opt (Re.Cat (Re.Chr ".") (Re.Plus Char.is_digit)))
              (Re.Opt (Re.Cat (Re.Cls is_e)
                         (Re.Cat (Re.Opt (Re.Cls is_sign)) (Re.Plus Char.is_digit))))))
  end.

(** [re.compile(f"^(?:{REGEX_MACROS[hole.macro]})$")]; the leading [^] is
    implied by [match]. *)
Definition macro_re (m : regex_macro) : Re.re :=
  Re.Cat (macro_source m) Re.Dollar.

Definition STRUCTURAL_MACROS (m : str) : option (ascii * ascii * bool) :=
  if PyStr.eqb m (py "()") then Some ("("%char, ")"%char, false)
  else if PyStr.eqb m (py "[]") then Some ("["%char, "]"%char, false)
  else if PyStr.eqb m (py "{}") then Some ("{"%char, "}"%char, false)
  else if PyStr.eqb m (py "(_)") then Some ("("%char, ")"%char, true)
  else if PyStr.eqb m (py "[_]") then Some ("["%char, "]"%char, true)
  else if PyStr.eqb m (py "{_}") then Some ("{"%char, "}"%char, true)
  else None.

(** [macro in TABLE] for an optional macro: [None] is in no table. *)
Definition macro_in {A} (table : str -> option A) (m : option str) : option A :=
  match m with
  | Some s => table s
  | None => None
  end.

(** ** Balanced scanner *)

(** The variables of the [while] loop of [match_balanced], the index
    apart. *)
Record scan_state : Type := {
  depth : Z;
  in_string : option ascii;        (* the quote that opened the string *)
  in_line_comment : bool;
  in_block_comment : bool
}.

(** What one iteration of the loop does: [i += 1; continue],
    [i += 2; continue], or the [return] at depth zero. *)
Inductive scan_action : Type :=
| Skip1 (st : scan_state)
| Skip2 (st : scan_state)
| Found.

Definition set_depth (d : Z) (st : scan_state) : scan_state :=
  {| depth := d; in_string := in_string st;
     in_line_comment := in_line_comment st;
     in_block_comment := in_block_comment st |}.
Definition set_in_string (q : option ascii) (st : scan_state) : scan_state :=
  {| depth := depth st; in_string := q;
     in_line_comment := in_line_comment st;
     in_block_comment := in_block_comment st |}.
Definition set_in_line_comment (b : bool) (st : scan_state) : scan_state :=
  {| depth := depth st; in_string := in_string st;
     in_line_comment := b;
     in_block_comment := in_block_comment st |}.
Definition set_in_block_comment (b : bool) (st : scan_state) : scan_state :=
  {| depth := depth st; in_string := in_string st;
     in_line_comment := in_line_comment st;
     in_block_comment := b |}.

(** The double quote character. *)
Definition dquote : ascii := "034"%char.

(** [nxt == ch] where [nxt] is the empty string at the end of the text. *)
Definition nxt_is (nxt : option ascii) (ch : ascii) : bool :=
  match nxt with
  | Some d => Char.eqb d ch
  | None => false
  end.

(** The body of the loop at character [c], followed by [nxt]. *)
Definition scan_step (open_ch close_ch : ascii) (c : ascii) (nxt : option ascii)
    (st : scan_state) : scan_action :=
  match in_string st with
  | Some q =>
      if Char.eqb c "\" then Skip2 st
      else if Char.eqb c q then Skip1 (set_in_string None st)
      else Skip1 st
  | None =>
      if in_line_comment st then
        if Char.eqb c "010" then Skip1 (set_in_line_comment false st)
        else Skip1 st
      else if in_block_comment st then
        if Char.eqb c "*" && nxt_is nxt "/" then Skip2 (set_in_block_comment false st)
        else Skip1 st
      else if Char.eqb c "/" && nxt_is nxt "/" then Skip2 (set_in_line_comment true st)
      else if Char.eqb c "/" && nxt_is nxt "*" then Skip2 (set_in_block_comment true st)
      else if Char.eqb c dquote || Char.eqb c "'" then Skip1 (set_in_string (Some c) st)
      else if Char.eqb c open_ch then Skip1 (set_depth (depth st + 1) st)
      else if Char.eqb c close_ch then
        if (depth st - 1 =? 0)%Z then Found
        else Skip1 (set_depth (depth st - 1) st)
      else Skip1 st
  end.

(** The loop [while i < n], on [rest = text[i:]]; the result is [end]. *)
Fixpoint scan_loop (open_ch close_ch : ascii) (rest : str) (i : nat)
    (st : scan_state) : option nat :=
  match rest with
  | [] => None
  | c :: t =>
      match scan_step open_ch close_ch c (head t) st with
      | Found => Some (i + 1)
      | Skip1 st' => scan_loop open_ch close_ch t (i + 1) st'
      | Skip2 st' =>
          match t with
          | [] => None
          | _ :: t' => scan_loop open_ch close_ch t' (i + 2) st'
          end
      end
  end.

Definition scan_init : scan_state :=
  {| depth := 1; in_string := None;
     in_line_comment := false; in_block_comment := false |}.

(** [(None, None)] is [None]; [(new_i, chunk)] is [Some (new_i, chunk)]. *)
Definition match_balanced (text : str) (i : nat) (open_ch close_ch : ascii)
    (inner_only : bool) : option (nat * str) :=
  match text !! i with
  | None => None
  | Some c =>
      if negb (Char.eqb c open_ch) then None
      else
        let start := i in
        match scan_loop open_ch close_ch (drop (i + 1) text) (i + 1) scan_init with
        | None => None
        | Some end_ =>
            if inner_only then Some (end_, PyStr.slice text (start + 1) (end_ - 1))
            else Some (end_, PyStr.slice text start end_)
        end
  end.

(** ** Matching engine *)

Abbreviation caps := (gmap (list ascii) (option (list ascii))).

(** A [for] loop that returns from the function at the first candidate
    whose body does, and falls through when none does. *)
Definition for_first {A B : Type} (body : A -> option B) : list A -> option B :=
  fix go (l : list A) : option B :=
    match l with
    | [] => None
    | x :: l' =>
        match body x with
        | Some r => Some r
        | None => go l'
        end
    end.

(** [range(len(text), i, -1)] and [range(i, len(text) + 1)]. *)
Definition range_down (n i : nat) : list nat := rev (seq (i + 1) (n - i)).
Definition range_up (i n : nat) : list nat := seq i (n + 1 - i).

Definition constrained (hole : HoleToken) : bool :=
  bool_decide (is_Some (macro_in REGEX_MACROS (hole_macro hole)))
  || bool_decide (is_Some (hole_regex hole)).

Definition end_iter (hole : HoleToken) (text : str) (i : nat) : list nat :=
  if constrained hole then range_down (length text) i
  else range_up i (length text).

(** The macro test of the loop body: [macro_re.match(substr)]. *)
Definition macro_ok (hole : HoleToken) (substr : str) : bool :=
  match macro_in REGEX_MACROS (hole_macro hole) with
  | Some m => Re.matches (macro_re m) substr
  | None => true
  end.

(** The regex test of the loop body: [hole.regex.fullmatch(substr)]. *)
Definition regex_ok (hole : HoleToken) (substr : str) : bool :=
  match hole_regex hole with
  | Some r => re_fullmatch r substr
  | None => true
  end.

(** [if hole.name: new_caps[hole.name] = chunk] *)
Definition bind_truthy (name : option str) (v : str) (captures : caps) : caps :=
  match name with
  | Some n => if PyStr.truthy n then <[n := Some v]> captures else captures
  | None => captures
  end.

(** [if hole.name is not None: new_caps[hole.name] = substr] *)
Definition bind (name : option str) (v : str) (captures : caps) : caps :=
  match name with
  | Some n => <[n := Some v]> captures
  | None => captures
  end.

(** [if hole.name is not None and hole.name not in new_caps:
       new_caps[hole.name] = None] *)
Definition bind_none (name : option str) (captures : caps) : caps :=
  match name with
  | Some n =>
      match captures !! n with
      | None => <[n := None]> captures
      | Some _ => captures
      end
  | None => captures
  end.

(** [match_from(text, tokens, ti, i, captures)] on [rest = tokens[ti:]]. *)
Fixpoint match_rest (text : str) (rest : list Token) (i : nat) (captures : caps)
    {struct rest} : bool * nat * caps :=
  match rest with
  | [] => (true, i, captures)
  | Literal token :: rest' =>
      match Re.match_at (lit_regex token) text i with
      | None => (false, i, captures)
      | Some m_end => match_rest text rest' m_end captures
      end
  | Hole hole :: rest' =>
      match macro_in STRUCTURAL_MACROS (hole_macro hole) with
      | Some (open_ch, close_ch, inner_only) =>
          match match_balanced text i open_ch close_ch inner_only with
          | None => (false, i, captures)
          | Some (new_i, chunk) =>
              match_rest text rest' new_i (bind_truthy (hole_name hole) chunk captures)
          end
      | None =>
          let body (end_ : nat) : option (bool * nat * caps) :=
            let substr := PyStr.slice text i end_ in
            if negb (macro_ok hole substr) then None
            else if negb (regex_ok hole substr) then None
            else
              let r := match_rest text rest' end_ (bind (hole_name hole) substr captures) in
              if r.1.1 then Some r else None in
          match for_first body (end_iter hole text i) with
          | Some r => r
          | None =>
              if hole_optional hole then
                match_rest text rest' i (bind_none (hole_name hole) captures)
              else (false, i, captures)
          end
      end
  end.

Definition match_from (text : str) (tokens : list Token) (ti i : nat)
    (captures : caps) : bool * nat * caps :=
  match_rest text (drop ti tokens) i captures.

Definition match_first (text : str) (tokens : list Token) : bool * (nat * nat) * caps :=
  match
    for_first
      (fun start =>
         let '(ok, end_pos, cs) := match_from text tokens 0 start ∅ in
         if ok then Some (true, (start, end_pos), cs) else None)
      (seq 0 (length text + 1))
  with
  | Some r => r
  | None => (false, (0, 0), ∅)
  end.

(** ** Operations of replacement templates *)

Module Ops.

Definition upper (v : str) : str := map Char.to_upper v.
Definition lower (v : str) : str := map Char.to_lower v.

Definition capitalize (v : str) : str :=
  match v with
  | [] => []
  | c :: t => Char.to_upper c :: map Char.to_lower t
  end.

(** The digits of [int(v)]: decimal digits, single underscores allowed
    between two digits. *)
Fixpoint digits (s : str) (acc : Z) (after_digit : bool) : option Z :=
  match s with
  | [] => if after_digit then Some acc else None
  | c :: t =>
      if Char.is_digit c then
        digits t (acc * 10 + Z.of_nat (Char.code c - 48)) true
      else if Char.eqb c "_" && after_digit then
        match t with
        | [] => None
        | _ => digits t acc false
        end
      else None
  end.

(** The whitespace [int] skips at both ends of an ASCII string: that of
    C's [isspace], TAB..CR and the space (FS..US are not skipped). *)
Definition is_c_space (c : ascii) : bool :=
  Char.in_range 9 13 c || (Char.code c =? 32).

Fixpoint lskip (s : str) : str :=
  match s with
  | c :: t => if is_c_space c then lskip t else s
  | [] => []
  end.

Definition skip_spaces (s : str) : str := rev (lskip (rev (lskip s))).

(** The number of digit characters of a string. *)
Definition count_digits (s : str) : nat :=
  length (List.filter Char.is_digit s).

(** The limit on conversions between [int] and [str]: with
    [sys.get_int_max_str_digits()] equal to [limit] (zero for no limit),
    a conversion of more than [limit] digits raises [ValueError], once
    the fixed threshold of 640 is passed. *)
Definition over_limit (limit n : nat) : bool :=
  (640 <? n) && (0 <? limit) && (limit <? n).

(** [int(v)]; [None] is [ValueError]. *)
Definition int (limit : nat) (v : str) : option Z :=
  match skip_spaces v with
  | c :: t =>
      let body := if Char.eqb c "-" || Char.eqb c "+" then t else c :: t in
      if over_limit limit (count_digits body) then None
      else if Char.eqb c "-" then Z.opp <$> digits t 0 false
      else if Char.eqb c "+" then digits t 0 false
      else digits (c :: t) 0 false
  | [] => None
  end.

(** The decimal notation of an integer. *)
Definition decimal (z : Z) : str :=
  list_ascii_of_string (DecimalString.NilZero.string_of_int (Z.to_int z)).

(** [str(z)] for an integer; [None] is [ValueError].  The threshold is
    compared with the length of the text, sign included, and the limit with
    its number of digits. *)
Definition str_of_int (limit : nat) (z : Z) : option str :=
  let s := decimal z in
  if (640 <? length s) && (0 <? limit) && (limit <? count_digits s) then None
  else Some s.

Fixpoint lstrip_dot (s : str) : str :=
  match s with
  | c :: t => if Char.eqb c "." then lstrip_dot t else s
  | [] => []
  end.

End Ops.

(** The outcome of [re.compile]. *)
Inductive compiled : Type :=
| Compiled (r : re_Pattern)
| PatternError              (* it raises [re.PatternError] *)
| OtherError (exc : str).   (* it raises another exception, [OverflowError]
                               or [RecursionError] for instance *)

(** What the program takes from the Python library it runs on. *)
Record host : Type := {
  (* [re.compile] *)
  re_compile : str -> compiled;
  (* [sys.get_int_max_str_digits()] *)
  int_max_str_digits : nat;
  (* [Path(p).name], [Path(p).stem] and [Path(p).suffix] *)
  Path_name : str -> str;
  Path_stem : str -> str;
  Path_suffix : str -> str
}.

Section Host.

Variable Py : host.

(** *** Pattern compilation *)

(** [make_literal_token]: [re.escape] keeps every character as itself,
    and the [re.sub] turns each escaped space into [\s*]. *)
Definition literal_re (text : str) : Re.re :=
  foldr (fun c r =>
           Re.Cat (if Char.eqb c " " then Re.Star Char.is_space else Re.Chr c) r)
        Re.Eps text.

Definition make_literal_token (text : str) : LiteralToken :=
  if negb (PyStr.truthy text) then {| lit_text := []; lit_regex := Re.Eps |}
  else {| lit_text := text; lit_regex := literal_re text |}.

(** [if lhs and lhs != "_": name = lhs] *)
Definition name_of (lhs : str) : option str :=
  if PyStr.truthy lhs && negb (PyStr.eqb lhs (py "_")) then Some lhs else None.

Definition parse_hole (content : str) : result HoleToken :=
  let optional := PyStr.endswith content "?" in
  let content := if optional then removelast content else content in
  let '(name, macro, regex_pat) :=
    match PyStr.split_once "~" content with
    | Some (lhs, rhs) =>
        (name_of (PyStr.strip lhs), None, Some (PyStr.strip rhs))
    | None =>
        match PyStr.split_once ":" content with
        | Some (lhs, rhs) =>
            (name_of (PyStr.strip lhs), Some (PyStr.strip rhs), None)
        | None =>
            (name_of (PyStr.strip content), None, None)
        end
    end in
  let unknown :=
    match macro with
    | Some m =>
        PyStr.truthy m
        && negb (bool_decide (is_Some (REGEX_MACROS m)))
        && negb (bool_decide (is_Some (STRUCTURAL_MACROS m)))
    | None => false
    end in
  if unknown then Raise (UnknownMacro (default [] macro))
  else
    let mk (regex : option re_Pattern) : HoleToken :=
      {| hole_name := name; hole_macro := macro;
         hole_regex := regex; hole_optional := optional |} in
    match regex_pat with
    | Some p =>
        if PyStr.truthy p then
          match re_compile Py p with
          | Compiled r => Ok (mk (Some r))
          | PatternError => Raise (InvalidRegex p)
          | OtherError exc => Raise (Uncaught exc)
          end
        else Ok (mk None)
    | None => Ok (mk None)
    end.

(** [pattern.replace("...", ":[_]")] *)
Fixpoint replace_dots (s : str) : str :=
  match s with
  | [] => []
  | c :: t =>
      match t with
      | c1 :: c2 :: r =>
          if Char.eqb c "." && Char.eqb c1 "." && Char.eqb c2 "."
          then py ":[_]" ++ replace_dots r
          else c :: replace_dots t
      | _ => c :: replace_dots t
      end
  end.

(** A match of [:\[[^\]]*\]] (or, with [nonempty], of [:\[([^\]]+)\]]) at
    the head of [s]: the text between the brackets. *)
Definition bracket_at (nonempty : bool) (s : str) : option str :=
  match s with
  | c0 :: c1 :: r =>
      if Char.eqb c0 ":" && Char.eqb c1 "[" then
        match PyStr.split_once "]" r with
        | Some (content, _) =>
            if nonempty && negb (PyStr.truthy content) then None else Some content
        | None => None
        end
      else None
  | _ => None
  end.

(** The segments [HOLE_RE.finditer] cuts the pattern into: [inl lit] for
    a literal segment, [inr content] for a hole.  [lit] is the literal
    read since [pos]; [skip] counts the characters of the current match
    still to be passed. *)
Fixpoint segments (s : str) (lit : str) (skip : nat) : list (str + str) :=
  match s with
  | [] => if PyStr.truthy lit then [inl lit] else []
  | c :: t =>
      match skip with
      | S k => segments t lit k
      | 0 =>
          match bracket_at false s with
          | Some content =>
              (if PyStr.truthy lit then [inl lit] else [])
                ++ inr content :: segments t [] (length content + 2)
          | None => segments t (lit ++ [c]) 0
          end
      end
  end.

Fixpoint tokens_of (segs : list (str + str)) : result (list Token) :=
  match segs with
  | [] => Ok []
  | inl lit :: segs' =>
      match tokens_of segs' with
      | Ok ts => Ok (Literal (make_literal_token lit) :: ts)
      | Raise e => Raise e
      end
  | inr content :: segs' =>
      match parse_hole content with
      | Raise e => Raise e
      | Ok h =>
          match tokens_of segs' with
          | Ok ts => Ok (Hole h :: ts)
          | Raise e => Raise e
          end
      end
  end.

Definition compile_pattern (pattern : str) : result (list Token) :=
  tokens_of (segments (replace_dots pattern) [] 0).

(** *** Replacement rendering *)

(** The table [OPERATIONS]: [None] for a name that is not a key; a
    function returns [None] where the Python one raises. *)
Definition OPERATIONS (op_name : str) : option (str -> option str) :=
  if PyStr.eqb op_name (py "upper") then Some (fun v => Some (Ops.upper v))
  else if PyStr.eqb op_name (py "lower") then Some (fun v => Some (Ops.lower v))
  else if PyStr.eqb op_name (py "capitalize") then Some (fun v => Some (Ops.capitalize v))
  else if PyStr.eqb op_name (py "strip") then Some (fun v => Some (PyStr.strip v))
  else if PyStr.eqb op_name (py "inc") then
    Some (fun v =>
            match Ops.int (int_max_str_digits Py) v with
            | Some z => Ops.str_of_int (int_max_str_digits Py) (z + 1)
            | None => None
            end)
  else if PyStr.eqb op_name (py "dec") then
    Some (fun v =>
            match Ops.int (int_max_str_digits Py) v with
            | Some z => Ops.str_of_int (int_max_str_digits Py) (z - 1)
            | None => None
            end)
  else if PyStr.eqb op_name (py "filename") then Some (fun p => Some (Path_name Py p))
  else if PyStr.eqb op_name (py "basename") then Some (fun p => Some (Path_stem Py p))
  else if PyStr.eqb op_name (py "extension") then
    Some (fun p => Some (Ops.lstrip_dot (Path_suffix Py p)))
  else None.

(** The [for op_name in ops] loop of [replacer]; [None] stands for its
    two [return m.group(0)]. *)
Fixpoint apply_ops (ops : list str) (value : str) : option str :=
  match ops with
  | [] => Some value
  | op_name :: ops' =>
      match OPERATIONS op_name with
      | None => None
      | Some func =>
          match func value with
          | None => None
          | Some value' => apply_ops ops' value'
          end
      end
  end.

(** [m.group(0)] of a placeholder whose [m.group(1)] is [placeholder]. *)
Definition group0 (placeholder : str) : str :=
  py ":[" ++ placeholder ++ py "]".

Definition replacer (captures : caps) (placeholder : str) : str :=
  let parts := PyStr.split "." placeholder in
  let field := hd [] parts in
  let ops := tl parts in
  match captures !! field with
  | None => group0 placeholder
  | Some None => group0 placeholder
  | Some (Some v) =>
      match apply_ops ops v with
      | None => group0 placeholder
      | Some value => value
      end
  end.

(** [re.sub(r":\[([^\]]+)\]", replacer, template)], with [skip] as in
    [segments]. *)
Fixpoint render_from (captures : caps) (s : str) (skip : nat) : str :=
  match s with
  | [] => []
  | c :: t =>
      match skip with
      | S k => render_from captures t k
      | 0 =>
          match bracket_at true s with
          | Some placeholder =>
              replacer captures placeholder
                ++ render_from captures t (length placeholder + 2)
          | None => c :: render_from captures t 0
          end
      end
  end.

Definition render_template (template : str) (captures : caps) : str :=
  render_from captures template 0.

(** *** Public API *)

(** What the two entry points return. *)
Inductive py_value : Type :=
| PyList (l : list caps)
| PyDict (d : caps)
| PyStr (s : str).

Record loop_state : Type := {
  all_captures : list caps;
  result_text : str;
  offset : nat
}.

(** One iteration of the [while True] loop of [pycomby]; [None] is
    [break]. *)
Definition loop_body (tokens : list Token) (replacement : option str)
    (st : loop_state) : option loop_state :=
  let '(ok, (start_in_substring, end_in_substring), captures) :=
    match_first (drop (offset st) (result_text st)) tokens in
  if negb ok then None
  else
    let match_start := offset st + start_in_substring in
    let match_end := offset st + end_in_substring in
    match replacement with
    | None =>
        Some {| all_captures := all_captures st ++ [captures];
                result_text := result_text st;
                offset := if end_in_substring =? start_in_substring
                          then match_end + 1 else match_end |}
    | Some r =>
        let rendered := render_template r captures in
        Some {| all_captures := all_captures st;
                result_text := take match_start (result_text st) ++ rendered
                                 ++ drop match_end (result_text st);
                offset := match_start + length rendered |}
    end.

(** The loop, for at most [fuel] further iterations after the first:
    the state at the [break], or [None] when the fuel runs out first. *)
Fixpoint loop (fuel : nat) (tokens : list Token) (replacement : option str)
    (st : loop_state) : option loop_state :=
  match loop_body tokens replacement st with
  | None => Some st
  | Some st' =>
      match fuel with
      | 0 => None
      | S fuel' => loop fuel' tokens replacement st'
      end
  end.

(** [pycomby(text, pattern, replacement)]; [Ok None] when the loop has
    not ended within the fuel. *)
Definition pycomby (fuel : nat) (text pattern : str) (replacement : option str)
    : result (option py_value) :=
  match compile_pattern pattern with
  | Raise e => Raise e
  | Ok tokens =>
      match tokens with
      | [] =>
          match replacement with
          | None => Ok (Some (PyList []))
          | Some _ => Ok (Some (PyStr text))
          end
      | _ =>
          match
            loop fuel tokens replacement
              {| all_captures := []; result_text := text; offset := 0 |}
          with
          | None => Ok None
          | Some st =>
              match replacement with
              | None => Ok (Some (PyList (all_captures st)))
              | Some _ => Ok (Some (PyStr (result_text st)))
              end
          end
      end
  end.

Definition pycomby_single (text pattern : str) (replacement : option str)
    : result py_value :=
  match compile_pattern pattern with
  | Raise e => Raise e
  | Ok tokens =>
      match tokens with
      | [] =>
          match replacement with
          | None => Ok (PyDict ∅)
          | Some _ => Ok (PyStr text)
          end
      | _ =>
          let '(ok, (start, end_), captures) := match_first text tokens in
          let captures := if negb ok then ∅ else captures in
          match replacement with
          | None => Ok (PyDict captures)
          | Some r =>
              let rendered := render_template r captures in
              Ok (PyStr (take start text ++ rendered ++ drop end_ text))
          end
      end
  end.

End Host.

(** ** A host to run examples on

    [Sample.re_compile] compiles the fragment of the regex syntax made of
    atoms ([.], [\d], [\w], [\s], a letter, a digit, a space or an
    underscore), each with an optional [*], [+] or [?]; on that fragment
    [fullmatch] is Python's.  The path functions are those of
    [PurePosixPath] on paths with neither a trailing slash nor a dot
    component, and the digit limit is the default one.  The closed
    examples below stay inside these fragments. *)

Module Sample.

Definition plain (c : ascii) : bool :=
  Char.is_word c || Char.eqb c " ".

Definition any_but_newline (c : ascii) : bool := negb (Char.eqb c "010").

Definition quantified (p : ascii -> bool) (s : str) : Re.re * str :=
  match s with
  | "*"%char :: t => (Re.Star p, t)
  | "+"%char :: t => (Re.Plus p, t)
  | "?"%char :: t => (Re.Opt (Re.Cls p), t)
  | _ => (Re.Cls p, s)
  end.

Fixpoint parse (fuel : nat) (s : str) : option Re.re :=
  match fuel with
  | 0 => None
  | S fuel' =>
      match s with
      | [] => Some Re.Eps
      | c :: t =>
          let atom : option ((ascii -> bool) * str) :=
            if Char.eqb c "." then Some (any_but_newline, t)
            else if Char.eqb c "\" then
              match t with
              | "d"%char :: t' => Some (Char.is_digit, t')
              | "w"%char :: t' => Some (Char.is_word, t')
              | "s"%char :: t' => Some (Char.is_space, t')
              | _ => None
              end
            else if plain c then Some (Char.eqb c, t)
            else None in
          match atom with
          | None => None
          | Some (p, t') =>
              let '(r, t'') := quantified p t' in
              Re.Cat r <$> parse fuel' t''
          end
      end
  end.

Definition re_compile (p : str) : compiled :=
  match parse (S (length p)) p with
  | Some r => Compiled {| re_fullmatch := Re.fullmatch r |}
  | None => PatternError
  end.

Definition Path_name (p : str) : str :=
  default [] (last (PyStr.split "/" p)).

(** The name cut at its last dot, when that dot is neither its first
    nor its last character. *)
Definition cut (name : str) : option (str * str) :=
  match PyStr.split_once "." (rev name) with
  | Some (rev_ext, rev_stem) =>
      if PyStr.truthy rev_ext && PyStr.truthy rev_stem
      then Some (rev rev_stem, "."%char :: rev rev_ext)
      else None
  | None => None
  end.

Definition Path_stem (p : str) : str :=
  match cut (Path_name p) with
  | Some (stem, _) => stem
  | None => Path_name p
  end.

Definition Path_suffix (p : str) : str :=
  match cut (Path_name p) with
  | Some (_, suffix) => suffix
  | None => []
  end.

Definition host : host :=
  Build_host re_compile 4300 Path_name Path_stem Path_suffix.

Definition compile_pattern := compile_pattern host.
Definition parse_hole := parse_hole host.
Definition render_template := render_template host.
Definition pycomby := pycomby host.
Definition pycomby_single := pycomby_single host.

End Sample.

(** ** Vocabulary of the properties *)

(** Occurrences of a character in a string. *)
Fixpoint count_char (ch : ascii) (s : str) : nat :=
  match s with
  | [] => 0
  | d :: t => (if Char.eqb d ch then 1 else 0) + count_char ch t
  end.

(** One when [ch] is [target], zero otherwise. *)
Definition hit (ch target : ascii) : Z := if Char.eqb ch target then 1%Z else 0%Z.

Definition is_delim (open_ch close_ch ch : ascii) : bool :=
  Char.eqb ch open_ch || Char.eqb ch close_ch.

(** The scanner is inside a string literal or a comment. *)
Definition in_text_or_comment (st : scan_state) : bool :=
  bool_decide (is_Some (in_string st)) || in_line_comment st || in_block_comment st.

(** Along the scan of [rest] from state [st], the delimiters occur only
    outside string literals and comments: no character that the scanner
    reads in a string or comment state, and no character it passes as the
    second one of a two-character step, is a delimiter. *)
Fixpoint delims_outside (open_ch close_ch : ascii) (rest : str) (st : scan_state) : bool :=
  match rest with
  | [] => true
  | ch :: t =>
      negb (in_text_or_comment st && is_delim open_ch close_ch ch)
      && match scan_step open_ch close_ch ch (head t) st with
         | Found => true
         | Skip1 st' => delims_outside open_ch close_ch t st'
         | Skip2 st' =>
             match t with
             | [] => true
             | d :: t' =>
                 negb (is_delim open_ch close_ch d)
                 && delims_outside open_ch close_ch t' st'
             end
         end
  end.

(** The literal-space-to-whitespace relaxation: [relaxed lit s] when [s]
    is [lit] with every space replaced by a run of zero or more whitespace
    characters. *)
Inductive relaxed : str -> str -> Prop :=
| relaxed_nil : relaxed [] []
| relaxed_char c lit s :
    c <> " "%char -> relaxed lit s -> relaxed (c :: lit) (c :: s)
| relaxed_space ws lit s :
    Forall (fun d => Char.is_space d = true) ws ->
    relaxed lit s -> relaxed (" "%char :: lit) (ws ++ s).

(** What one token contributed to a successful match: the text it
    consumed and, for a hole, the value it captured ([None] for a skipped
    optional hole). *)
Inductive piece : Type :=
| LitPiece (consumed : str)
| HolePiece (consumed : str) (value : option str).

Definition consumed_of (p : piece) : str :=
  match p with
  | LitPiece s => s
  | HolePiece s _ => s
  end.

(** The recomposition of the coverage property as the specification
    words it: literal texts and captured values. *)
Definition value_of (p : piece) : str :=
  match p with
  | LitPiece s => s
  | HolePiece _ v => default [] v
  end.

(** [piece_for tok p]: [p] is a contribution token [tok] can make. *)
Definition piece_for (tok : Token) (p : piece) : Prop :=
  match tok, p with
  | Literal l, LitPiece s => relaxed (lit_text l) s
  | Hole h, HolePiece s v =>
      match macro_in STRUCTURAL_MACROS (hole_macro h) with
      | Some (open_ch, close_ch, inner_only) =>
          exists inner,
            s = open_ch :: inner ++ [close_ch]
            /\ v = Some (if inner_only then inner else s)
      | None =>
          (v = Some s /\ macro_ok h s = true /\ regex_ok h s = true)
          \/ (hole_optional h = true /\ v = None /\ s = [])
      end
  | _, _ => False
  end.

(** A token that is not a structural hole of an inner-only macro. *)
Definition not_inner_only (tok : Token) : Prop :=
  match tok with
  | Hole h =>
      forall o c, macro_in STRUCTURAL_MACROS (hole_macro h) <> Some (o, c, true)
  | Literal _ => True
  end.

(** The binding a contribution leaves in the dictionary. *)
Definition record (tok : Token) (p : piece) (captures : caps) : caps :=
  match tok, p with
  | Hole h, HolePiece _ (Some v) =>
      if bool_decide (is_Some (macro_in STRUCTURAL_MACROS (hole_macro h)))
      then bind_truthy (hole_name h) v captures
      else bind (hole_name h) v captures
  | Hole h, HolePiece _ None => bind_none (hole_name h) captures
  | _, _ => captures
  end.

Fixpoint replay (tokens : list Token) (pieces : list piece) (captures : caps) : caps :=
  match tokens, pieces with
  | tok :: tokens', p :: pieces' => replay tokens' pieces' (record tok p captures)
  | _, _ => captures
  end.

(** A literal token as [make_literal_token] builds it. *)
Definition compiled_token (tok : Token) : Prop :=
  match tok with
  | Literal l => lit_regex l = literal_re (lit_text l)
  | Hole _ => True
  end.

(** The operations of a placeholder folded left to right over the
    captured string, as the specification words it; [None] when an
    operation is unknown or raises. *)
Definition fold_ops (Py : host)
    (ops : list str) (v : str) : option str :=
  foldl (fun acc op_name =>
           match acc, OPERATIONS Py op_name with
           | Some value, Some func => func value
           | _, _ => None
           end)
        (Some v) ops.

(** The scan of [re.sub] for placeholders over [pre ++ tail], entered with
    [skip] characters of a match still to pass, is between two matches
    when it reaches the end of [pre]: no placeholder that begins in [pre]
    runs into [tail]. *)
Fixpoint between_matches (pre tail : str) (skip : nat) : bool :=
  match pre with
  | [] => skip =? 0
  | c :: p =>
      match skip with
      | S k => between_matches p tail k
      | 0 =>
          match bracket_at true (pre ++ tail) with
          | Some placeholder => between_matches p tail (length placeholder + 2)
          | None => between_matches p tail 0
          end
      end
  end.



(** The text of a segment in the pattern: a literal as it is, a hole
    between [:[] and []]. *)
Definition unsegment (segs : list (str + str)) : str :=
  concat ((fun seg : str + str =>
             match seg with
             | inl lit => lit
             | inr content => py ":[" ++ content ++ py "]"
             end) <$> segs).

Definition token_name (tok : Token) : option str :=
  match tok with
  | Hole h => hole_name h
  | Literal _ => None
  end.

(** The names of the holes of a token list. *)
Definition hole_names (tokens : list Token) : gset str :=
  list_to_set (omap token_name tokens).

(** The token list has no zero-width match, in any text. *)
Definition no_empty_match (tokens : list Token) : Prop :=
  forall text s e captures,
    match_first text tokens = (true, (s, e), captures) -> s < e.

(** A character the scanner passes in its normal state without a change
    of state: neither a delimiter, nor a quote, nor a slash. *)
Definition scanner_plain (open_ch close_ch ch : ascii) : bool :=
  negb (is_delim open_ch close_ch ch)
  && negb (Char.eqb ch dquote) && negb (Char.eqb ch "'") && negb (Char.eqb ch "/").

(** The scanner is outside strings and comments. *)
Definition scanner_normal (st : scan_state) : Prop :=
  in_string st = None /\ in_line_comment st = false /\ in_block_comment st = false.

(** A token whose hole name, if any, is not empty. *)
Definition named_token (tok : Token) : Prop :=
  forall n, token_name tok = Some n -> n <> [].

(** The characters of an unsigned decimal number. *)
Definition uint_chars (u : Decimal.uint) : str :=
  list_ascii_of_string (NilEmpty.string_of_uint u).

(** The loop body of a hole accepts the candidate end [end_]: the slice
    passes the macro and regex tests and the rest of the tokens matches
    from [end_]. *)
Definition candidate_ok (text : str) (hole : HoleToken) (rest : list Token)
    (i : nat) (captures : caps) (end_ : nat) : bool :=
  macro_ok hole (PyStr.slice text i end_)
  && regex_ok hole (PyStr.slice text i end_)
  && (match_rest text rest end_
        (bind (hole_name hole) (PyStr.slice text i end_) captures)).1.1.


(** The body of the [for end in end_iter] loop of [match_from]: [None] is
    a candidate the loop passes over. *)
Definition hole_body (text : str) (hole : HoleToken) (rest : list Token)
    (i : nat) (captures : caps) (end_ : nat) : option (bool * nat * caps) :=
  let substr := PyStr.slice text i end_ in
  if negb (macro_ok hole substr) then None
  else if negb (regex_ok hole substr) then None
  else
    let r := match_rest text rest end_ (bind (hole_name hole) substr captures) in
    if r.1.1 then Some r else None.

(** ** Facts about strings *)

Lemma char_eqb_eq a b : Char.eqb a b = true <-> a = b.
Proof. apply Ascii.eqb_eq. Qed.

Lemma char_eqb_neq a b : Char.eqb a b = false <-> a <> b.
Proof. apply Ascii.eqb_neq. Qed.

Lemma char_eqb_refl a : Char.eqb a a = true.
Proof. apply Ascii.eqb_refl. Qed.

Lemma split_once_app sep l r :
  sep ∉ l -> PyStr.split_once sep (l ++ sep :: r) = Some (l, r).
Proof.
  induction l as [|c l IH]; intros Hnot; simpl.
  - by rewrite char_eqb_refl.
  - apply not_elem_of_cons in Hnot as [Hne Hnot].
    destruct (Char.eqb c sep) eqn:E.
    + apply char_eqb_eq in E. congruence.
    + by rewrite IH.
Qed.








(** ** Pattern compilation and the drivers, for any host *)

Section HostFacts.

Variable Py : host.

(** C7.  When the pattern compiles to the empty token list, the four modes
    return their no-op value, whatever the text and the replacement, and
    with no iteration of the matching loop (the result does not depend on
    the fuel, zero included): all-query gives the empty list, single-query
    the empty dictionary, and both replace modes the text unchanged. *)
Theorem empty_pattern_noop (text pattern replacement : str) (fuel : nat) :
  compile_pattern Py pattern = Ok [] ->
  pycomby Py fuel text pattern None = Ok (Some (PyList []))
  /\ pycomby_single Py text pattern None = Ok (PyDict ∅)
  /\ pycomby Py fuel text pattern (Some replacement) = Ok (Some (PyStr text))
  /\ pycomby_single Py text pattern (Some replacement) = Ok (PyStr text).
Proof.
  intros Hc. unfold pycomby, pycomby_single.
  rewrite Hc. repeat split; reflexivity.
Qed.



Lemma range_up_cons i n : i <= n -> range_up i n = i :: range_up (S i) n.
Proof.
  intros H. unfold range_up.
  replace (n + 1 - i) with (S (n + 1 - S i)) by lia. reflexivity.
Qed.

(** A named plain wildcard alone matches the empty string at the start of
    any text. *)
Lemma match_first_named_wildcard (text n : str) :
  match_first text
    [Hole {| hole_name := Some n; hole_macro := None; hole_regex := None;
             hole_optional := false |}]
  = (true, (0, 0), {[ n := Some [] ]}).
Proof.
  unfold match_first.
  replace (seq 0 (length text + 1)) with (0 :: seq 1 (length text))
    by (rewrite Nat.add_1_r; reflexivity).
  unfold match_from. cbn -[range_up].
  rewrite range_up_cons by lia. cbn. reflexivity.
Qed.

(** A loop whose body never breaks uses up any fuel. *)
Lemma loop_never_breaks tokens replacement :
  (forall st, is_Some (loop_body Py tokens replacement st)) ->
  forall fuel st, loop Py fuel tokens replacement st = None.
Proof.
  intros Hbody fuel. induction fuel as [|fuel IH]; intros st; simpl;
    destruct (Hbody st) as [st' ->]; [reflexivity|apply IH].
Qed.

(** C2.  The claim fails on the code: with the pattern [:[x]], whose
    wildcard matches the empty string everywhere, every iteration of the
    loop of [pycomby] finds a match, in query mode and in replace mode
    alike, on every text and for every replacement, so that no amount of
    fuel lets the loop reach its [break]. *)
Theorem pycomby_wildcard_never_breaks (text : str) (replacement : option str)
    (fuel : nat) :
  pycomby Py fuel text (py ":[x]") replacement = Ok None.
Proof.
  unfold pycomby.
  change (compile_pattern Py (py ":[x]"))
    with (Ok [Hole {| hole_name := Some (py "x"); hole_macro := None;
                      hole_regex := None; hole_optional := false |}]).
  cbv iota beta.
  rewrite loop_never_breaks; [reflexivity|].
  intros st. unfold loop_body. rewrite match_first_named_wildcard.
  destruct replacement; eexists; reflexivity.
Qed.

(** The failure value of [match_first]. *)
Lemma match_first_false text tokens :
  (match_first text tokens).1.1 = false ->
  match_first text tokens = (false, (0, 0), ∅).
Proof.
  unfold match_first.
  generalize (seq 0 (length text + 1)). intros starts.
  set (body := fun start : nat => _).
  destruct (for_first body starts) as [r|] eqn:E; [|reflexivity].
  intros Hr. exfalso. revert E. induction starts as [|a starts IH]; simpl; [done|].
  destruct (body a) as [r'|] eqn:Ea; [|exact IH].
  intros [= ->]. unfold body in Ea.
  destruct (match_from text tokens 0 a ∅) as [[[] e] cs]; [|done].
  injection Ea as <-. done.
Qed.

End HostFacts.

Lemma empty_pattern_noop_witness :
  pycomby Sample.host 0 (py "hello") [] None = Ok (Some (PyList []))
  /\ pycomby_single Sample.host (py "hello") [] None = Ok (PyDict ∅)
  /\ pycomby Sample.host 0 (py "hello") [] (Some (py "X")) = Ok (Some (PyStr (py "hello")))
  /\ pycomby_single Sample.host (py "hello") [] (Some (py "X")) = Ok (PyStr (py "hello")).
Proof. apply (empty_pattern_noop Sample.host (py "hello") [] (py "X") 0). reflexivity. Defined.




(** ** Templates *)

Section TemplateFacts.

Variable Py : host.

Lemma split_once_Some sep s l r :
  PyStr.split_once sep s = Some (l, r) -> s = l ++ sep :: r /\ sep ∉ l.
Proof.
  revert l. induction s as [|c s IH]; intros l; simpl; [done|].
  destruct (Char.eqb c sep) eqn:E.
  - intros [= <- <-]. apply char_eqb_eq in E as ->. split; [done|]. apply not_elem_of_nil.
  - destruct (PyStr.split_once sep s) as [[l' r']|]; [|done].
    intros [= <- <-]. destruct (IH l' eq_refl) as [-> Hl]. split; [done|].
    apply not_elem_of_cons. split; [|done].
    apply char_eqb_neq in E. congruence.
Qed.

Lemma bracket_at_Some b s content :
  bracket_at b s = Some content ->
  exists r, s = py ":[" ++ content ++ "]"%char :: r.
Proof.
  unfold bracket_at. destruct s as [|c0 [|c1 s]]; try done.
  destruct (Char.eqb c0 ":") eqn:E0; [|done].
  destruct (Char.eqb c1 "[") eqn:E1; [|done].
  apply char_eqb_eq in E0 as ->. apply char_eqb_eq in E1 as ->. simpl.
  destruct (PyStr.split_once "]" s) as [[l r]|] eqn:E; [|done].
  apply split_once_Some in E as [-> _].
  destruct (b && negb (PyStr.truthy l)); [done|].
  intros [= ->]. by exists r.
Qed.

Lemma bracket_at_app b content r :
  "]"%char ∉ content -> (b = true -> content <> []) ->
  bracket_at b (py ":[" ++ content ++ "]"%char :: r) = Some content.
Proof.
  intros Hc Hne. simpl. rewrite split_once_app by done.
  destruct b; [|done]. destruct content; [by specialize (Hne eq_refl)|done].
Qed.

(** Passing the characters of a match. *)
Lemma render_from_skip captures (pre s : str) :
  render_from Py captures (pre ++ s) (length pre) = render_from Py captures s 0.
Proof.
  induction pre as [|c pre IH]; [done|]. simpl. exact IH.
Qed.

(** With no bindings every placeholder is left as it is. *)
Lemma render_from_0 captures c (s : str) :
  render_from Py captures (c :: s) 0
  = match bracket_at true (c :: s) with
    | Some placeholder =>
        replacer Py captures placeholder
          ++ render_from Py captures s (length placeholder + 2)
    | None => c :: render_from Py captures s 0
    end.
Proof. reflexivity. Qed.

Lemma render_from_empty (s : str) skip :
  render_from Py ∅ s skip = drop skip s.
Proof.
  revert skip. induction s as [|c s IH]; intros skip; [by destruct skip|].
  destruct skip as [|k]; [|simpl; apply IH].
  rewrite render_from_0.
  destruct (bracket_at true (c :: s)) as [content|] eqn:E.
  - apply bracket_at_Some in E as [r E]. simpl in E. injection E as -> ->.
    rewrite IH. unfold replacer. rewrite lookup_empty.
    assert (drop (length content + 2) ("["%char :: content ++ "]"%char :: r) = r) as ->.
    { change ("["%char :: content ++ "]"%char :: r)
        with (("["%char :: content) ++ ["]"%char] ++ r).
      rewrite app_assoc. apply drop_app_length'.
      rewrite length_app. simpl. lia. }
    unfold group0. simpl. by rewrite <- app_assoc.
  - rewrite IH. by rewrite drop_0.
Qed.

Lemma render_template_empty (template : str) :
  render_template Py template ∅ = template.
Proof. unfold render_template. by rewrite render_from_empty, drop_0. Qed.

End TemplateFacts.

(** ** The single-match driver when nothing matches *)

Section SingleFacts.

Variable Py : host.

(** When [match_first] fails, [pycomby_single] in replace mode renders the
    template against the empty dictionary and splices it at the span
    [(0, 0)] of the failure value: the result is the replacement followed
    by the text. *)
Lemma pycomby_single_no_match (text pattern replacement : str) tokens :
  compile_pattern Py pattern = Ok tokens ->
  tokens <> [] ->
  (match_first text tokens).1.1 = false ->
  pycomby_single Py text pattern (Some replacement)
  = Ok (PyStr (replacement ++ text)).
Proof.
  intros Hc Hne Hm. unfold pycomby_single. rewrite Hc.
  destruct tokens as [|tok tokens]; [done|].
  rewrite (match_first_false _ _ Hm). simpl.
  by rewrite render_template_empty, drop_0.
Qed.

End SingleFacts.

(** C1.  The claim fails on the code: the literal pattern [x] has no match
    in [abc], and [pycomby_single] in replace mode returns [yabc], the
    replacement [y] put in front of the text, instead of [abc]. *)
Theorem pycomby_single_no_match_prepends :
  (exists tokens,
      Sample.compile_pattern (py "x") = Ok tokens /\ tokens <> []
      /\ match_first (py "abc") tokens = (false, (0, 0), ∅))
  /\ Sample.pycomby_single (py "abc") (py "x") (Some (py "y")) = Ok (PyStr (py "yabc"))
  /\ py "yabc" <> py "abc".
Proof.
  split; [|split; [reflexivity|discriminate]].
  exists [Literal (make_literal_token (py "x"))].
  split; [reflexivity|]. split; [discriminate|]. vm_compute. reflexivity.
Qed.

(** ** Optional holes *)

(** [match_from] on the index [ti], as the source reads it: success at
    the end of the token list, and otherwise the case of [tokens[ti]] with
    the recursive calls at [ti + 1]. *)
Lemma match_from_end text tokens i captures :
  match_from text tokens (length tokens) i captures = (true, i, captures).
Proof. unfold match_from. by rewrite drop_all. Qed.

Lemma match_from_at text tokens ti token i captures :
  tokens !! ti = Some token ->
  match_from text tokens ti i captures
  = match_rest text (token :: drop (S ti) tokens) i captures.
Proof. intros Ht. unfold match_from. by rewrite (drop_S _ _ _ Ht). Qed.

(** The skip of an optional hole, for the holes that are not structural:
    when no candidate end leads to a match of the rest, the matcher
    recurses at the same position and records a name that is not bound yet
    with the value none. *)
Lemma optional_skip_non_structural text hole rest i captures :
  macro_in STRUCTURAL_MACROS (hole_macro hole) = None ->
  hole_optional hole = true ->
  (forall end_, end_ ∈ end_iter hole text i ->
     macro_ok hole (PyStr.slice text i end_) = true ->
     regex_ok hole (PyStr.slice text i end_) = true ->
     (match_rest text rest end_
        (bind (hole_name hole) (PyStr.slice text i end_) captures)).1.1 = false) ->
  match_rest text (Hole hole :: rest) i captures
  = match_rest text rest i (bind_none (hole_name hole) captures).
Proof.
  intros Hs Ho Hall. simpl. rewrite Hs, Ho.
  set (body := fun end_ : nat => _).
  assert (for_first body (end_iter hole text i) = None) as ->; [|done].
  induction (end_iter hole text i) as [|e ends IH]; [done|]. simpl.
  assert (body e = None) as ->.
  { unfold body.
    destruct (macro_ok hole (PyStr.slice text i e)) eqn:Em; [|done].
    destruct (regex_ok hole (PyStr.slice text i e)) eqn:Er; [|done]. simpl.
    rewrite Hall; [done|apply elem_of_cons; by left|done|done]. }
  apply IH. intros e' He'. apply Hall. apply elem_of_cons. by right.
Qed.

(** A structural hole is matched without a look at its optional flag. *)
Lemma structural_ignores_optional text name macro regex opt rest i captures :
  is_Some (STRUCTURAL_MACROS macro) ->
  match_rest text
    (Hole {| hole_name := name; hole_macro := Some macro; hole_regex := regex;
             hole_optional := opt |} :: rest) i captures
  = match_rest text
      (Hole {| hole_name := name; hole_macro := Some macro; hole_regex := regex;
               hole_optional := false |} :: rest) i captures.
Proof. intros [[[o c] inner] Hs]. simpl. by rewrite Hs. Qed.

(** C3.  The claim fails on the code for structural holes: in the pattern
    [:[x:()?]abc] the hole is structural and optional, the text [abc] has
    no parenthesis, and the matcher reports no match; it never takes the
    skip, which recursing at position 0 with [x] bound to none would turn
    into a match of the whole text. *)
Theorem structural_optional_not_skipped :
  let hole := {| hole_name := Some (py "x"); hole_macro := Some (py "()");
                 hole_regex := None; hole_optional := true |} in
  let tokens := [Hole hole; Literal (make_literal_token (py "abc"))] in
  Sample.compile_pattern (py ":[x:()?]abc") = Ok tokens
  /\ match_first (py "abc") tokens = (false, (0, 0), ∅)
  /\ Sample.pycomby_single (py "abc") (py ":[x:()?]abc") None = Ok (PyDict ∅)
  /\ match_from (py "abc") tokens 1 0 (bind_none (hole_name hole) ∅)
     = (true, 3, {[ py "x" := None ]}).
Proof. repeat split; vm_compute; reflexivity. Qed.

(** ** Constrained holes *)

(** The candidate ends of a constrained hole: from the length of the text
    down to [i + 1]. *)
Lemma constrained_end_iter hole text i :
  constrained hole = true ->
  end_iter hole text i = rev (seq (i + 1) (length text - i)).
Proof. intros H. unfold end_iter. by rewrite H. Qed.

(** C6.  The claim fails on the code for the regex macros: on the text
    made of [7] and a newline, the hole [:[x:digit]] accepts the whole
    two-character slice, which [\d+] does not fully match; the test
    [^(?:\d+)$] run with [match] lets [$] stand before the final newline. *)
Theorem macro_accepts_trailing_newline :
  let text := py "7" ++ ["010"%char] in
  Sample.pycomby_single text (py ":[x:digit]") None
  = Ok (PyDict {[ py "x" := Some text ]})
  /\ Re.fullmatch (macro_source digit) text = false
  /\ Re.fullmatch (macro_source digit) (py "7") = true.
Proof. repeat split; vm_compute; reflexivity. Qed.

(** ** Placeholders *)

Section PlaceholderFacts.

Variable Py : host.

Lemma fold_ops_cons op ops v :
  fold_ops Py (op :: ops) v
  = match OPERATIONS Py op with
    | Some func =>
        match func v with
        | Some v' => fold_ops Py ops v'
        | None => None
        end
    | None => None
    end.
Proof.
  unfold fold_ops. simpl.
  assert (forall l, foldl
            (fun acc op_name =>
               match acc, OPERATIONS Py op_name with
               | Some value, Some func => func value
               | _, _ => None
               end) None l = None) as HNone.
  { induction l as [|a l IH]; [done|]. simpl. exact IH. }
  destruct (OPERATIONS Py op) as [func|]; [|apply HNone].
  destruct (func v); [done|apply HNone].
Qed.

(** The loop of [(replacer Py)] computes the left fold. *)
Lemma apply_ops_fold ops v : apply_ops Py ops v = fold_ops Py ops v.
Proof.
  revert v. induction ops as [|op ops IH]; intros v; [done|].
  rewrite fold_ops_cons. simpl.
  destruct (OPERATIONS Py op) as [func|]; [|done].
  destruct (func v); [apply IH|done].
Qed.

Lemma fold_ops_app ops1 ops2 v :
  fold_ops Py (ops1 ++ ops2) v
  = match fold_ops Py ops1 v with
    | Some v1 => fold_ops Py ops2 v1
    | None => None
    end.
Proof.
  revert v. induction ops1 as [|op ops1 IH]; intros v; [done|].
  simpl. rewrite !fold_ops_cons.
  destruct (OPERATIONS Py op) as [func|]; [|done].
  destruct (func v); [apply IH|done].
Qed.

Lemma fold_ops_unknown ops op v :
  op ∈ ops -> OPERATIONS Py op = None -> fold_ops Py ops v = None.
Proof.
  intros [ops1 [ops2 ->]]%list_elem_of_split Hop.
  rewrite fold_ops_app. destruct (fold_ops Py ops1 v); [|done].
  by rewrite fold_ops_cons, Hop.
Qed.

Lemma fold_ops_raises ops1 op ops2 v v1 func :
  fold_ops Py ops1 v = Some v1 -> OPERATIONS Py op = Some func -> func v1 = None ->
  fold_ops Py (ops1 ++ op :: ops2) v = None.
Proof.
  intros H1 Hop Hf. by rewrite fold_ops_app, H1, fold_ops_cons, Hop, Hf.
Qed.

Lemma bracket_at_inv b s content :
  bracket_at b s = Some content ->
("]"%char ∉ content) /\ (b = true -> content <> [])
  /\ exists r, s = py ":[" ++ content ++ "]"%char :: r.
Proof.
  intros E. pose proof (bracket_at_Some _ _ _ E) as Hr.
  unfold bracket_at in E. destruct s as [|c0 [|c1 s]]; try done.
  destruct (Char.eqb c0 ":" && Char.eqb c1 "["); [|done].
  destruct (PyStr.split_once "]" s) as [[l r]|] eqn:Es; [|done].
  apply split_once_Some in Es as [_ Hl].
  destruct b, l; simpl in E; try done; injection E as <-; done.
Qed.

Lemma bracket_at_prefix b (s tail : str) :
  bracket_at b (s ++ tail) = None -> bracket_at b s = None.
Proof.
  intros E. destruct (bracket_at b s) as [content|] eqn:Es; [|done].
  apply bracket_at_inv in Es as (Hc & Hne & r & ->).
  rewrite <- E. symmetry.
  change ((py ":[" ++ content ++ "]"%char :: r) ++ tail)
    with (":"%char :: "["%char :: (content ++ "]"%char :: r) ++ tail).
  rewrite <- app_assoc.
  change (":"%char :: "["%char :: content ++ ("]"%char :: r) ++ tail)
    with (py ":[" ++ content ++ "]"%char :: (r ++ tail)).
  by apply bracket_at_app.
Qed.

Lemma between_matches_length (pre tail : str) : forall skip,
  between_matches pre tail skip = true -> skip <= length pre.
Proof.
  induction pre as [|c p IH]; intros skip; simpl.
  - intros ?%Nat.eqb_eq. lia.
  - destruct skip as [|k]; [lia|]. intros ?%IH. lia.
Qed.

Lemma between_matches_0 c (p tail : str) :
  between_matches (c :: p) tail 0
  = match bracket_at true ((c :: p) ++ tail) with
    | Some placeholder => between_matches p tail (length placeholder + 2)
    | None => between_matches p tail 0
    end.
Proof. reflexivity. Qed.

(** The renderer splits at a point between two matches. *)
Lemma render_from_app captures (pre tail : str) : forall skip,
  between_matches pre tail skip = true ->
  render_from Py captures (pre ++ tail) skip
  = render_from Py captures pre skip ++ render_from Py captures tail 0.
Proof.
  induction pre as [|c p IH]; intros skip.
  - simpl. by intros ->%Nat.eqb_eq.
  - destruct skip as [|k]; [|simpl; apply IH].
    rewrite between_matches_0. change ((c :: p) ++ tail) with (c :: (p ++ tail)).
    rewrite !render_from_0.
    destruct (bracket_at true (c :: p ++ tail)) as [content|] eqn:E.
    + intros Hb. pose proof (between_matches_length _ _ _ Hb) as Hlen.
      apply bracket_at_inv in E as (Hc & Hne & r & E).
      simpl in E. injection E as -> E.
      assert (p ++ tail = ("["%char :: content ++ ["]"%char]) ++ r) as Hq.
      { rewrite E. simpl. by rewrite <- app_assoc. }
      assert (take (length content + 2) p = "["%char :: content ++ ["]"%char]) as Ht.
      { rewrite <- (take_app_le p tail) by lia. rewrite Hq.
        apply take_app_length'. simpl. rewrite length_app. simpl. lia. }
      assert (exists p', p = "["%char :: content ++ "]"%char :: p') as [p' ->].
      { exists (drop (length content + 2) p).
        rewrite <- (take_drop (length content + 2) p) at 1.
        rewrite Ht. simpl. by rewrite <- app_assoc. }
      clear Hq Ht.
      change (":"%char :: "["%char :: content ++ "]"%char :: p')
        with (py ":[" ++ content ++ "]"%char :: p').
      rewrite bracket_at_app by auto.
      rewrite IH by done. by rewrite app_assoc.
    + intros Hb. rewrite (bracket_at_prefix true (c :: p) tail) by done.
      rewrite IH by done. done.
Qed.

(** Text without a colon is literal: the scan finds no placeholder in it,
    whatever follows, and the renderer copies it. *)
Lemma between_matches_literal (pre tail : str) :
  ":"%char ∉ pre -> between_matches pre tail 0 = true.
Proof.
  induction pre as [|c p IH]; [done|].
  intros [Hc Hp]%not_elem_of_cons. rewrite between_matches_0.
  assert (bracket_at true ((c :: p) ++ tail) = None) as ->; [|by apply IH].
  simpl. destruct (p ++ tail); [done|].
  assert (Char.eqb c ":" = false) as -> by (apply char_eqb_neq; congruence).
  done.
Qed.

Lemma render_template_literal captures (pre : str) :
  ":"%char ∉ pre -> render_template Py pre captures = pre.
Proof.
  unfold render_template. induction pre as [|c p IH]; [done|].
  intros [Hc Hp]%not_elem_of_cons. rewrite render_from_0.
  assert (bracket_at true (c :: p) = None) as ->; [|by rewrite IH].
  simpl. destruct p; [done|].
  assert (Char.eqb c ":" = false) as -> by (apply char_eqb_neq; congruence).
  done.
Qed.

(** C8.  Every placeholder [:[content]] (a non-empty content without
    [\]]) that the renderer finds in a template, whatever comes before it
    ([pre], literal text and other placeholders, the scan being between two
    matches at its end) and after it ([rest]): with [name] the part of the
    content before its first dot and [ops] the parts after it, the renderer
    emits the rendering of [pre], then a text [emitted], and goes on with
    [rest].  [emitted] is the placeholder itself, brackets included, when
    the name is absent from the bindings, when it is bound to none, when
    one of the operations is unknown, and when an operation raises on the
    value the operations before it have produced; otherwise it is the
    captured string with all the operations folded over it from left to
    right. *)
Theorem render_placeholder (captures : caps) (pre content rest : str) :
  content <> [] -> "]"%char ∉ content ->
  between_matches pre (py ":[" ++ content ++ py "]" ++ rest) 0 = true ->
  let name := hd [] (PyStr.split "." content) in
  let ops := tail (PyStr.split "." content) in
  let verbatim := py ":[" ++ content ++ py "]" in
  exists emitted,
    render_template Py (pre ++ py ":[" ++ content ++ py "]" ++ rest) captures
    = render_template Py pre captures ++ emitted ++ render_template Py rest captures
    /\ (captures !! name = None -> emitted = verbatim)
    /\ (captures !! name = Some None -> emitted = verbatim)
    /\ (forall op, op ∈ ops -> OPERATIONS Py op = None -> emitted = verbatim)
    /\ (forall v ops1 op ops2 v1 func,
          captures !! name = Some (Some v) ->
          ops = ops1 ++ op :: ops2 ->
          fold_ops Py ops1 v = Some v1 ->
          OPERATIONS Py op = Some func -> func v1 = None ->
          emitted = verbatim)
    /\ (forall v r,
          captures !! name = Some (Some v) ->
          fold_ops Py ops v = Some r ->
          emitted = r).
Proof.
  intros Hne Hclose Hpre name ops verbatim.
  exists (replacer Py captures content). split.
  - unfold render_template. rewrite render_from_app by done. f_equal.
    change (py ":[" ++ content ++ py "]" ++ rest)
      with (":"%char :: ("["%char :: content ++ "]"%char :: rest)).
    rewrite render_from_0.
    change (":"%char :: "["%char :: content ++ "]"%char :: rest)
      with (py ":[" ++ content ++ "]"%char :: rest).
    rewrite bracket_at_app by done. f_equal.
    change ("["%char :: content ++ "]"%char :: rest)
      with (("["%char :: content) ++ ["]"%char] ++ rest).
    rewrite app_assoc.
    replace (length content + 2) with (length (("["%char :: content) ++ ["]"%char]))
      by (rewrite length_app; simpl; lia).
    apply render_from_skip.
  - unfold replacer. fold name ops.
    change (group0 content) with verbatim.
    destruct (captures !! name) as [[v|]|] eqn:E; [|by repeat split..].
    rewrite apply_ops_fold. repeat split; try done.
    + intros op Hin Hop. by rewrite (fold_ops_unknown _ _ _ Hin Hop).
    + intros v' ops1 op ops2 v1 func [= <-] Hops H1 Hop Hf.
      by rewrite Hops, (fold_ops_raises _ _ _ _ _ _ H1 Hop Hf).
    + by intros v' r [= <-] ->.
Qed.

End PlaceholderFacts.

Lemma render_placeholder_witness :
  exists emitted,
    Sample.render_template
      (py "Hi :[x], " ++ py ":[" ++ py "num.inc" ++ py "]" ++ py "!")
      {[ py "num" := Some (py "99") ]}
    = py "Hi :[x], " ++ emitted ++ py "!"
    /\ emitted = py "100".
Proof.
  destruct (render_placeholder Sample.host
              {[ py "num" := Some (py "99") ]} (py "Hi :[x], ") (py "num.inc") (py "!"))
    as (emitted & Hr & _ & _ & _ & _ & Hfold).
  - discriminate.
  - apply (bool_decide_unpack _). vm_compute. exact I.
  - vm_compute. reflexivity.
  - exists emitted. split; [exact Hr|].
    apply (Hfold (py "99")); vm_compute; reflexivity.
Defined.

(** ** The balanced scanner *)

Section ScannerFacts.

Variables open_ch close_ch : ascii.

Lemma scan_step_Found ch nxt st :
  scan_step open_ch close_ch ch nxt st = Found ->
  ch = close_ch /\ depth st = 1%Z.
Proof.
  unfold scan_step. destruct st as [d [q|] l b]; simpl;
    repeat (match goal with
            | |- context [if ?b then _ else _] => destruct b eqn:?
            end; try discriminate).
  intros _. split; [by apply char_eqb_eq|lia].
Qed.

Lemma scan_step_Skip2 ch nxt st st' :
  scan_step open_ch close_ch ch nxt st = Skip2 st' ->
  depth st' = depth st
  /\ (in_text_or_comment st = false -> ch = "/"%char).
Proof.
  unfold scan_step, in_text_or_comment. destruct st as [d [q|] l b]; simpl;
    repeat (match goal with
            | |- context [if ?b then _ else _] => destruct b eqn:?
            end; try discriminate);
    intros [= <-]; (split; [done|]); try done;
    intros _;
    match goal with
    | H : _ && _ = true |- _ =>
        apply andb_true_iff in H as [H _]; by apply char_eqb_eq in H
    end.
Qed.

(** In a string or comment state no step touches the depth or returns. *)
Lemma scan_step_in_text ch nxt st :
  in_text_or_comment st = true ->
  match scan_step open_ch close_ch ch nxt st with
  | Skip1 st' | Skip2 st' => depth st' = depth st
  | Found => False
  end.
Proof.
  unfold scan_step, in_text_or_comment. destruct st as [d [q|] l b]; simpl;
    [|destruct l; [|destruct b; [|done]]];
    intros _;
    repeat (match goal with
            | |- context [if ?b then _ else _] => destruct b eqn:?
            end); done.
Qed.

Hypothesis Hoc : open_ch <> close_ch.
Hypothesis Hdq : is_delim open_ch close_ch dquote = false.
Hypothesis Hsq : is_delim open_ch close_ch "'" = false.
Hypothesis Hslash : is_delim open_ch close_ch "/" = false.

Lemma scan_step_Skip1 ch nxt st st' :
  scan_step open_ch close_ch ch nxt st = Skip1 st' ->
  in_text_or_comment st && is_delim open_ch close_ch ch = false ->
  (depth st' + hit ch close_ch = depth st + hit ch open_ch)%Z.
Proof using Hoc Hdq Hsq Hslash.
  unfold scan_step, in_text_or_comment, is_delim, hit in *.
  apply orb_false_iff in Hdq as [Hdq1 Hdq2]. apply orb_false_iff in Hsq as [Hsq1 Hsq2].
  destruct st as [d [q|] l b]; simpl;
    repeat (match goal with
            | |- context [if ?b then _ else _] => destruct b eqn:?
            end; try discriminate);
    intros [= <-]; simpl; intros;
    repeat match goal with
           | H : Char.eqb _ _ = true |- _ => apply char_eqb_eq in H; subst
           | H : _ || _ = true |- _ => apply orb_true_iff in H as [H|H]
           | H : _ || _ = false |- _ => apply orb_false_iff in H as [? ?]
           end; try congruence; try lia;
    try (match goal with
         | H : Char.eqb ?a ?a = false |- _ => rewrite char_eqb_refl in H; discriminate
         end).
Qed.

(** The region a successful scan has read: [inner] and the closing
    character; when the delimiters occur only outside strings and
    comments, the depth accounts for the delimiters of [inner]. *)
Lemma scan_loop_region n : forall rest i st e,
  length rest <= n ->
  scan_loop open_ch close_ch rest i st = Some e ->
  exists inner,
    e = i + length inner + 1
    /\ take (length inner + 1) rest = inner ++ [close_ch]
    /\ (delims_outside open_ch close_ch rest st = true ->
        (depth st + Z.of_nat (count_char open_ch inner)
         = 1 + Z.of_nat (count_char close_ch inner))%Z).
Proof using Hoc Hdq Hsq Hslash.
  induction n as [|n IH]; intros rest i st e Hlen; (destruct rest as [|ch t]; [done|]);
    [simpl in Hlen; lia|].
  simpl in Hlen. cbn [scan_loop delims_outside].
  destruct (scan_step open_ch close_ch ch (head t) st) as [st'|st'|] eqn:Estep.
  - intros Hs. apply IH in Hs as (inner & -> & Htake & Hcount); [|lia].
    exists (ch :: inner). split; [simpl; lia|]. split; [simpl; by rewrite Htake|].
    intros [Hch Hrest]%andb_true_iff. apply negb_true_iff in Hch.
    specialize (Hcount Hrest).
    pose proof (scan_step_Skip1 _ _ _ _ Estep Hch) as Hd. unfold hit in Hd.
    cbn [count_char]. destruct (Char.eqb ch open_ch), (Char.eqb ch close_ch); simpl; lia.
  - destruct t as [|d t']; [done|]. intros Hs.
    apply IH in Hs as (inner & -> & Htake & Hcount); [|simpl in Hlen; lia].
    exists (ch :: d :: inner). split; [simpl; lia|]. split; [simpl; by rewrite Htake|].
    intros [Hch [Hd Hrest]%andb_true_iff]%andb_true_iff.
    apply negb_true_iff in Hch, Hd. specialize (Hcount Hrest).
    destruct (scan_step_Skip2 _ _ _ _ Estep) as [Hdepth Hnormal].
    assert (is_delim open_ch close_ch ch = false) as Hch'.
    { destruct (in_text_or_comment st); [exact Hch|]. by rewrite (Hnormal eq_refl). }
    unfold is_delim in Hch', Hd.
    apply orb_false_iff in Hch' as [? ?]. apply orb_false_iff in Hd as [? ?].
    cbn [count_char].
    repeat match goal with H : Char.eqb _ _ = false |- _ => rewrite H; clear H end.
    simpl. lia.
  - intros [= <-]. destruct (scan_step_Found _ _ _ Estep) as [-> Hdepth].
    exists []. split; [simpl; lia|]. split; [done|]. intros _. simpl. lia.
Qed.

(** What [match_balanced] returns: the text from [i] to [end] is the
    opening character, [inner] and the closing character; the chunk is
    that text, or [inner] alone for an inner-only macro. *)
Lemma match_balanced_region text i inner_only e chunk :
  match_balanced text i open_ch close_ch inner_only = Some (e, chunk) ->
  exists inner,
    e = i + length inner + 2 /\ e <= length text
    /\ PyStr.slice text i e = open_ch :: inner ++ [close_ch]
    /\ chunk = (if inner_only then inner else open_ch :: inner ++ [close_ch])
    /\ (delims_outside open_ch close_ch (drop (i + 1) text) scan_init = true ->
        count_char open_ch inner = count_char close_ch inner).
Proof using Hoc Hdq Hsq Hslash.
  unfold match_balanced.
  destruct (text !! i) as [c0|] eqn:Ei; [|done].
  destruct (Char.eqb c0 open_ch) eqn:Ec; [|done]. simpl.
  apply char_eqb_eq in Ec as ->.
  destruct (scan_loop open_ch close_ch (drop (i + 1) text) (i + 1) scan_init)
    as [end_|] eqn:Es; [|done].
  apply (scan_loop_region _ _ _ _ _ (Nat.le_refl _)) in Es
    as (inner & -> & Htake & Hcount).
  assert (PyStr.slice text i (i + 1 + length inner + 1) = open_ch :: inner ++ [close_ch])
    as Hslice.
  { unfold PyStr.slice. rewrite (drop_S _ _ _ Ei).
    replace (i + 1 + length inner + 1 - i) with (S (length inner + 1)) by lia.
    simpl. rewrite <- Htake. f_equal. f_equal. f_equal. lia. }
  assert (i + 1 + length inner + 1 <= length text) as Hle.
  { apply (f_equal length) in Htake.
    rewrite length_take, length_drop, length_app in Htake. simpl in Htake. lia. }
  assert (PyStr.slice text (i + 1) (i + 1 + length inner + 1 - 1) = inner) as Hinner.
  { unfold PyStr.slice.
    replace (i + 1 + length inner + 1 - 1 - (i + 1)) with (length inner) by lia.
    replace (length inner) with (length inner `min` (length inner + 1)) at 1 by lia.
    rewrite <- take_take, Htake. by rewrite take_app_length. }
  assert (delims_outside open_ch close_ch (drop (i + 1) text) scan_init = true ->
          count_char open_ch inner = count_char close_ch inner) as Hc.
  { intros Hout. specialize (Hcount Hout). simpl in Hcount. lia. }
  destruct inner_only; intros [= <- <-]; exists inner;
    (split; [lia|]); (split; [lia|]);
    replace (i + length inner + 2) with (i + 1 + length inner + 1) by lia;
    done.
Qed.

End ScannerFacts.

Lemma structural_table m o c inner_only :
  STRUCTURAL_MACROS m = Some (o, c, inner_only) ->
  (o = "("%char /\ c = ")"%char) \/ (o = "["%char /\ c = "]"%char)
  \/ (o = "{"%char /\ c = "}"%char).
Proof.
  unfold STRUCTURAL_MACROS.
  repeat (destruct (PyStr.eqb m _); [intros [= <- <- <-]; auto|]). done.
Qed.

(** The delimiters of the table differ from each other, from the quotes
    and from the slash. *)
Lemma structural_delims m o c inner_only :
  STRUCTURAL_MACROS m = Some (o, c, inner_only) ->
  o <> c /\ is_delim o c dquote = false /\ is_delim o c "'" = false
  /\ is_delim o c "/" = false.
Proof.
  intros [[-> ->]|[[-> ->]|[-> ->]]]%structural_table; by repeat split.
Qed.

Lemma count_char_app ch (s t : str) :
  count_char ch (s ++ t) = count_char ch s + count_char ch t.
Proof. induction s as [|d s IH]; [done|]. simpl. rewrite IH. lia. Qed.

(** C9.  For a macro of the structural table, a successful balanced scan
    of a text whose delimiters occur only outside string literals and
    comments captures a chunk with as many opening as closing characters
    (with or without the outer pair); and a step the scanner takes in a
    string, line-comment or block-comment state never returns and leaves
    the depth as it is, whatever the character read. *)
Theorem scanner_fidelity (m : str) (o c : ascii) (inner_only : bool)
    (text : str) (i e : nat) (chunk : str) :
  STRUCTURAL_MACROS m = Some (o, c, inner_only) ->
  (match_balanced text i o c inner_only = Some (e, chunk) ->
   delims_outside o c (drop (i + 1) text) scan_init = true ->
   count_char o chunk = count_char c chunk)
  /\ (forall ch nxt st,
        in_text_or_comment st = true ->
        match scan_step o c ch nxt st with
        | Skip1 st' | Skip2 st' => depth st' = depth st
        | Found => False
        end).
Proof.
  intros Hm. split; [|intros ch nxt st; apply scan_step_in_text].
  destruct (structural_delims _ _ _ _ Hm) as (Hoc & Hdq & Hsq & Hslash).
  intros Hb Hout.
  destruct (match_balanced_region o c Hoc Hdq Hsq Hslash _ _ _ _ _ Hb)
    as (inner & _ & _ & _ & -> & Hcount).
  specialize (Hcount Hout). destruct inner_only; [done|].
  cbn [count_char]. rewrite !count_char_app. cbn [count_char].
  rewrite !char_eqb_refl.
  assert (Char.eqb o c = false) as -> by by apply char_eqb_neq.
  assert (Char.eqb c o = false) as -> by by apply char_eqb_neq.
  lia.
Qed.

Lemma scanner_fidelity_witness :
  match_balanced (py "f(a 'q' (b)) x") 1 "(" ")" false = Some (12, py "(a 'q' (b))")
  /\ count_char "(" (py "(a 'q' (b))") = count_char ")" (py "(a 'q' (b))").
Proof.
  split; [vm_compute; reflexivity|].
  apply (proj1 (scanner_fidelity (py "()") "(" ")" false (py "f(a 'q' (b)) x") 1 12
                  (py "(a 'q' (b))") eq_refl));
    vm_compute; reflexivity.
Defined.

(** ** Coverage *)

Lemma for_first_Some {A B} (body : A -> option B) l r :
  for_first body l = Some r -> exists x, x ∈ l /\ body x = Some r.
Proof.
  induction l as [|a l IH]; simpl; [done|].
  destruct (body a) as [r'|] eqn:E.
  - intros [= ->]. exists a. split; [apply elem_of_cons; by left|done].
  - intros (x & Hx & Hb)%IH. exists x. split; [apply elem_of_cons; by right|done].
Qed.

Lemma end_iter_bounds hole text i e :
  e ∈ end_iter hole text i -> i <= e <= length text.
Proof.
  unfold end_iter, range_down, range_up. destruct (constrained hole).
  - rewrite list_elem_of_In, <- in_rev, in_seq. lia.
  - rewrite list_elem_of_In, in_seq. lia.
Qed.

Lemma slice_app (text : str) i j k :
  i <= j -> j <= k ->
  PyStr.slice text i j ++ PyStr.slice text j k = PyStr.slice text i k.
Proof.
  intros Hij Hjk. unfold PyStr.slice.
  replace (k - i) with ((j - i) + (k - j)) by lia.
  rewrite <- take_take_drop, drop_drop.
  by replace (i + (j - i)) with j by lia.
Qed.

(** A greedy run of [p*] consumes characters of [p] and hands the rest to
    the continuation. *)
Lemma run_star p k (s : str) n :
  Re.run (Re.Star p) s k = Some n ->
  exists ws s' m,
    s = ws ++ s' /\ Forall (fun d => p d = true) ws
    /\ k s' = Some m /\ n = length ws + m.
Proof.
  revert n. induction s as [|d t IH]; intros n; simpl.
  - intros Hk. by exists [], [], n.
  - destruct (p d) eqn:Ep; [|intros Hk; by exists [], (d :: t), n].
    simpl in IH.
    destruct ((fix star (s : str) : option nat :=
                 match s with
                 | [] => k s
                 | d :: t =>
                     if p d
                     then match star t with
                          | Some n => Some (S n)
                          | None => k s
                          end
                     else k s
                 end) t) as [n'|] eqn:Es.
    + intros [= <-]. destruct (IH n' eq_refl) as (ws & s' & m & -> & Hws & Hk & ->).
      exists (d :: ws), s', m. split_and!; [done|by constructor|done|simpl; lia].
    + intros Hk. by exists [], (d :: t), n.
Qed.

(** A literal regex consumes a relaxation of its literal. *)
Lemma run_literal lit : forall (s : str) k n,
  Re.run (literal_re lit) s k = Some n ->
  exists consumed s' m,
    s = consumed ++ s' /\ relaxed lit consumed
    /\ k s' = Some m /\ n = length consumed + m.
Proof.
  induction lit as [|c lit IH]; intros s k n.
  - simpl. intros Hk. exists [], s, n. split_and!; [done|constructor|done|done].
  - change (literal_re (c :: lit))
      with (Re.Cat (if Char.eqb c " " then Re.Star Char.is_space else Re.Chr c)
                   (literal_re lit)).
    cbn [Re.run]. destruct (Char.eqb c " ") eqn:Ec.
    + apply char_eqb_eq in Ec as ->.
      intros (ws & s1 & m1 & -> & Hws & Hk1 & ->)%run_star.
      apply IH in Hk1 as (consumed & s' & m & -> & Hrel & Hk & ->).
      exists (ws ++ consumed), s', m.
      split_and!; [by rewrite app_assoc|by constructor|done|].
      rewrite length_app. lia.
    + apply char_eqb_neq in Ec. cbn [Re.run].
      destruct s as [|d t]; [done|].
      destruct (Char.eqb d c) eqn:Ed; [|done]. apply char_eqb_eq in Ed as ->.
      destruct (Re.run (literal_re lit) t k) as [n'|] eqn:Er; [|done].
      intros [= <-]. apply IH in Er as (consumed & s' & m & -> & Hrel & Hk & ->).
      exists (c :: consumed), s', m. split_and!; [done|by constructor|done|done].
Qed.

(** The match of a literal token at [i]: the end position, and the text
    between the two, a relaxation of the literal. *)
Lemma match_at_literal lit text i e :
  i <= length text ->
  Re.match_at (literal_re lit) text i = Some e ->
  i <= e <= length text /\ relaxed lit (PyStr.slice text i e).
Proof.
  intros Hi. unfold Re.match_at.
  destruct (Re.run (literal_re lit) (drop i text) (fun _ => Some 0)) as [n|] eqn:Er;
    [|done].
  intros [= <-]. apply run_literal in Er as (consumed & s' & m & Hs & Hrel & [= <-] & ->).
  assert (length consumed + length s' = length text - i) as Hlen.
  { rewrite <- length_drop, Hs. by rewrite length_app. }
  split; [lia|]. unfold PyStr.slice.
  replace (i + (length consumed + 0) - i) with (length consumed) by lia.
  by rewrite Hs, take_app_length.
Qed.

(** The equation of [match_rest] at a hole that is not structural. *)
Lemma match_rest_hole text hole rest i captures :
  macro_in STRUCTURAL_MACROS (hole_macro hole) = None ->
  match_rest text (Hole hole :: rest) i captures
  = match
      for_first
        (fun end_ =>
           let substr := PyStr.slice text i end_ in
           if negb (macro_ok hole substr) then None
           else if negb (regex_ok hole substr) then None
           else
             let r := match_rest text rest end_ (bind (hole_name hole) substr captures) in
             if r.1.1 then Some r else None)
        (end_iter hole text i)
    with
    | Some r => r
    | None =>
        if hole_optional hole
        then match_rest text rest i (bind_none (hole_name hole) captures)
        else (false, i, captures)
    end.
Proof. intros Hs. simpl. by rewrite Hs. Qed.

(** Every successful run of the matcher decomposes into one piece per
    token. *)
Lemma match_rest_pieces text : forall rest i captures e captures',
  Forall compiled_token rest ->
  i <= length text ->
  match_rest text rest i captures = (true, e, captures') ->
  exists pieces,
    Forall2 piece_for rest pieces
    /\ concat (consumed_of <$> pieces) = PyStr.slice text i e
    /\ i <= e <= length text
    /\ captures' = replay rest pieces captures.
Proof.
  induction rest as [|tok rest IH]; intros i captures e captures' Hwf Hi.
  - simpl. intros [= <- <-]. exists []. split_and!; try done; try lia.
    unfold PyStr.slice. by rewrite Nat.sub_diag.
  - apply Forall_cons in Hwf as [Htok Hwf]. destruct tok as [lit|hole].
    + simpl in Htok. cbn [match_rest]. rewrite Htok.
      destruct (Re.match_at (literal_re (lit_text lit)) text i) as [m_end|] eqn:Em;
        [|done].
      apply match_at_literal in Em as [Hb Hrel]; [|done].
      intros (pieces & Hp & Hc & He & ->)%IH; [|done|lia].
      exists (LitPiece (PyStr.slice text i m_end) :: pieces).
      split_and!; [by constructor| |lia|lia|done].
      cbn [fmap list_fmap concat consumed_of]. rewrite Hc. apply slice_app; lia.
    + destruct (macro_in STRUCTURAL_MACROS (hole_macro hole))
        as [[[open_ch close_ch] inner_only]|] eqn:Es.
      * cbn [match_rest]. rewrite Es.
        destruct (match_balanced text i open_ch close_ch inner_only)
          as [[new_i chunk]|] eqn:Eb; [|done].
        assert (exists m, STRUCTURAL_MACROS m = Some (open_ch, close_ch, inner_only))
          as [m Hm].
        { destruct (hole_macro hole) as [m|]; [by exists m|done]. }
        destruct (structural_delims _ _ _ _ Hm) as (Hoc & Hdq & Hsq & Hslash).
        destruct (match_balanced_region _ _ Hoc Hdq Hsq Hslash _ _ _ _ _ Eb)
          as (inner & Hnew & Hle & Hslice & Hchunk & _).
        intros (pieces & Hp & Hc & He & ->)%IH; [|done|lia].
        exists (HolePiece (open_ch :: inner ++ [close_ch]) (Some chunk) :: pieces).
        split_and!; [| |lia|lia|].
        -- constructor; [|done]. cbn [piece_for]. rewrite Es.
           exists inner. split; [done|]. rewrite Hchunk. by destruct inner_only.
        -- cbn [fmap list_fmap concat consumed_of]. rewrite Hc, <- Hslice.
           apply slice_app; lia.
        -- cbn [replay record]. rewrite Es.
           by rewrite (bool_decide_eq_true_2 _ (mk_is_Some _ _ eq_refl)).
      * rewrite (match_rest_hole _ _ _ _ _ Es).
        set (body := fun end_ : nat => _).
        destruct (for_first body (end_iter hole text i)) as [r|] eqn:Ef.
        -- apply for_first_Some in Ef as (end_ & Hin & Hbody).
           apply end_iter_bounds in Hin. unfold body in Hbody.
           destruct (macro_ok hole (PyStr.slice text i end_)) eqn:Hmo; [|done].
           destruct (regex_ok hole (PyStr.slice text i end_)) eqn:Hro; [|done].
           cbn [negb] in Hbody. cbv zeta in Hbody.
           destruct (match_rest text rest end_
                       (bind (hole_name hole) (PyStr.slice text i end_) captures))
             as [[ok e'] cs] eqn:Er.
           destruct ok; [|done]. injection Hbody as <-. intros [= <- <-].
           apply IH in Er as (pieces & Hp & Hc & He & ->); [|done|lia].
           exists (HolePiece (PyStr.slice text i end_) (Some (PyStr.slice text i end_))
                     :: pieces).
           split_and!; [| |lia|lia|].
           ++ constructor; [|done]. cbn [piece_for]. rewrite Es. by left.
           ++ cbn [fmap list_fmap concat consumed_of]. rewrite Hc. apply slice_app; lia.
           ++ cbn [replay record]. rewrite Es.
              by rewrite (bool_decide_eq_false_2 _ (@is_Some_None _)).
        -- destruct (hole_optional hole) eqn:Ho; [|done].
           intros (pieces & Hp & Hc & He & ->)%IH; [|done|done].
           exists (HolePiece [] None :: pieces).
           split_and!; [| |lia|lia|done].
           ++ constructor; [|done]. cbn [piece_for]. rewrite Es. by right.
           ++ cbn [fmap list_fmap concat consumed_of]. by rewrite Hc.
Qed.

(** The tokens of a compiled pattern carry the regexes of
    [make_literal_token]. *)
Lemma tokens_of_compiled Py segs tokens :
  tokens_of Py segs = Ok tokens -> Forall compiled_token tokens.
Proof.
  revert tokens. induction segs as [|[lit|content] segs IH]; intros tokens; simpl.
  - intros [= <-]. constructor.
  - destruct (tokens_of Py segs) as [ts|]; [|done]. intros [= <-].
    constructor; [|by apply IH]. unfold make_literal_token. by destruct lit.
  - destruct (parse_hole Py content) as [h|]; [|done].
    destruct (tokens_of Py segs) as [ts|]; [|done]. intros [= <-].
    constructor; [done|by apply IH].
Qed.

(** A success of [match_first] is a success of [match_from] at an anchor
    inside the text. *)
Lemma match_first_true text tokens s e captures :
  match_first text tokens = (true, (s, e), captures) ->
  s <= length text /\ match_from text tokens 0 s ∅ = (true, e, captures).
Proof.
  unfold match_first. set (body := fun start : nat => _).
  destruct (for_first body (seq 0 (length text + 1))) as [r|] eqn:Ef; [|done].
  intros ->. apply for_first_Some in Ef as (start & Hin & Hbody).
  apply list_elem_of_In, in_seq in Hin. unfold body in Hbody.
  destruct (match_from text tokens 0 start ∅) as [[[] e'] cs] eqn:Em; [|done].
  injection Hbody as <- <- <-. split; [lia|done].
Qed.

(** Without inner-only holes the value of a piece is the text it
    consumed. *)
Lemma value_is_consumed tokens pieces :
  Forall2 piece_for tokens pieces ->
  Forall not_inner_only tokens ->
  value_of <$> pieces = consumed_of <$> pieces.
Proof.
  induction 1 as [|tok p tokens pieces Hp _ IH]; [done|].
  intros [Hni Hrest]%Forall_cons. cbn [fmap list_fmap]. f_equal; [|by apply IH].
  destruct tok as [l|h], p as [s|s v]; try done. simpl in *.
  destruct (macro_in STRUCTURAL_MACROS (hole_macro h)) as [[[o c] []]|].
  - by destruct (Hni o c).
  - by destruct Hp as (inner & -> & ->).
  - by destruct Hp as [(-> & _ & _)|(_ & -> & ->)].
Qed.

(** C5, amended.  Every successful match of span [[s, e)] of a compiled
    pattern decomposes into one piece per token, in pattern order, whose
    consumed texts concatenate to [text[s..e)] and whose values are the
    ones recorded in the bindings.  The piece of a literal is a relaxation
    of the literal; the text a hole consumed is its captured value, except
    that an inner-only structural hole consumed its value wrapped in the
    open and close characters, and a skipped optional hole (value none)
    consumed nothing.  For a pattern without inner-only holes the literal
    texts and captured values themselves concatenate to [text[s..e)]. *)
Theorem coverage (Py : host)
    (text pattern : str) (tokens : list Token) (s e : nat) (captures : caps) :
  compile_pattern Py pattern = Ok tokens ->
  match_first text tokens = (true, (s, e), captures) ->
  exists pieces,
    Forall2 piece_for tokens pieces
    /\ captures = replay tokens pieces ∅
    /\ concat (consumed_of <$> pieces) = PyStr.slice text s e
    /\ (Forall not_inner_only tokens ->
        concat (value_of <$> pieces) = PyStr.slice text s e).
Proof.
  intros Hc [Hs Hm]%match_first_true.
  apply tokens_of_compiled in Hc. unfold match_from in Hm. rewrite drop_0 in Hm.
  apply match_rest_pieces in Hm as (pieces & Hp & Hcat & _ & Hcaps); [|done|done].
  exists pieces. split_and!; try done.
  intros Hni. by rewrite (value_is_consumed _ _ Hp Hni).
Qed.

Lemma coverage_witness :
  exists pieces,
    Forall2 piece_for
      [Hole {| hole_name := Some (py "x"); hole_macro := Some (py "(_)");
               hole_regex := None; hole_optional := false |};
       Literal (make_literal_token (py " b"))] pieces
    /\ ({[ py "x" := Some (py "a") ]} : caps)
       = replay
           [Hole {| hole_name := Some (py "x"); hole_macro := Some (py "(_)");
                    hole_regex := None; hole_optional := false |};
            Literal (make_literal_token (py " b"))] pieces ∅
    /\ concat (consumed_of <$> pieces) = PyStr.slice (py "(a)  b") 0 6.
Proof.
  destruct (coverage Sample.host (py "(a)  b") (py ":[x:(_)] b")
              [Hole {| hole_name := Some (py "x"); hole_macro := Some (py "(_)");
                       hole_regex := None; hole_optional := false |};
               Literal (make_literal_token (py " b"))]
              0 6 {[ py "x" := Some (py "a") ]})
    as (pieces & Hp & Hcaps & Hcat & _).
  - vm_compute. reflexivity.
  - vm_compute. reflexivity.
  - exists pieces. by split_and!.
Defined.

(** C5, as stated, fails on an inner-only hole: the pattern [:[x:(_)]]
    matches [(a)] on the span [[0, 3)] and binds [x] to [a]; no
    decomposition into pieces that agrees with these bindings has values
    that concatenate to the three characters of the span. *)
Lemma coverage_fails_inner_only :
  Sample.compile_pattern (py ":[x:(_)]")
  = Ok [Hole {| hole_name := Some (py "x"); hole_macro := Some (py "(_)");
                hole_regex := None; hole_optional := false |}]
  /\ match_first (py "(a)")
       [Hole {| hole_name := Some (py "x"); hole_macro := Some (py "(_)");
                hole_regex := None; hole_optional := false |}]
     = (true, (0, 3), {[ py "x" := Some (py "a") ]})
  /\ ~ (exists pieces,
          Forall2 piece_for
            [Hole {| hole_name := Some (py "x"); hole_macro := Some (py "(_)");
                     hole_regex := None; hole_optional := false |}] pieces
          /\ replay
               [Hole {| hole_name := Some (py "x"); hole_macro := Some (py "(_)");
                        hole_regex := None; hole_optional := false |}] pieces ∅
             = {[ py "x" := Some (py "a") ]}
          /\ concat (value_of <$> pieces) = PyStr.slice (py "(a)") 0 3).
Proof.
  split; [reflexivity|]. split; [vm_compute; reflexivity|].
  intros (pieces & Hp & Hr & Hcat).
  apply Forall2_cons_inv_l in Hp as (p & pieces' & Hp & Hnil & ->).
  apply Forall2_nil_inv_l in Hnil as ->.
  destruct p as [s|s v]; [done|]. cbn in Hp. destruct Hp as (inner & -> & ->).
  cbn in Hr. apply (f_equal (fun m : caps => m !! ["x"%char])) in Hr.
  destruct (bool_decide _) in Hr; rewrite !lookup_insert_eq in Hr;
    injection Hr as ->; vm_compute in Hcat; discriminate.
Qed.

(** ** Further properties of the code *)

Set Warnings "-clear-no-such-hyp".

Lemma replace_dots_nil s : replace_dots s = [] -> s = [].
Proof.
  destruct s as [|c [|c1 [|c2 r]]]; simpl; try done.
  by destruct (Char.eqb c "." && Char.eqb c1 "." && Char.eqb c2 ".").
Qed.

Lemma segments_nil s : forall lit, segments s lit 0 = [] -> s = [] /\ lit = [].
Proof.
  induction s as [|c s IH]; intros lit.
  - simpl. by destruct lit.
  - change (segments (c :: s) lit 0)
      with (match bracket_at false (c :: s) with
            | Some content =>
                (if PyStr.truthy lit then [inl lit] else [])
                  ++ inr content :: segments s [] (length content + 2)
            | None => segments s (lit ++ [c]) 0
            end).
    destruct (bracket_at false (c :: s)) as [content|].
    + by destruct (PyStr.truthy lit).
    + intros [_ Hl]%IH. by destruct lit.
Qed.

Lemma tokens_of_nil Py segs : tokens_of Py segs = Ok [] -> segs = [].
Proof.
  destruct segs as [|[lit|content] segs]; simpl; [done| |].
  - by destruct (tokens_of Py segs).
  - destruct (parse_hole Py content); [|done]. by destruct (tokens_of Py segs).
Qed.

(** X1.  A pattern compiles to the empty token list exactly when it is the
    empty string: the empty-pattern branch of the drivers is taken for no
    other pattern. *)
Theorem compile_pattern_empty_iff (Py : host) (pattern : str) :
  compile_pattern Py pattern = Ok [] <-> pattern = [].
Proof.
  split; [|by intros ->].
  unfold compile_pattern. intros Hs%tokens_of_nil.
  apply segments_nil in Hs as [Hs _]. by apply replace_dots_nil.
Qed.

Lemma name_of_Some lhs n :
  name_of lhs = Some n -> n = lhs /\ n <> [] /\ n <> py "_".
Proof.
  unfold name_of. destruct lhs as [|c lhs]; [done|]. simpl.
  unfold PyStr.eqb. case_bool_decide; [done|]. by intros [= <-].
Qed.

Lemma parse_hole_shape (Py : host) (content : str) (h : HoleToken) :
  parse_hole Py content = Ok h ->
  (hole_macro h = None \/ hole_regex h = None)
  /\ (forall n, hole_name h = Some n -> n <> [] /\ n <> py "_")
  /\ (forall m, hole_macro h = Some m ->
        m = [] \/ is_Some (REGEX_MACROS m) \/ is_Some (STRUCTURAL_MACROS m))
  /\ hole_optional h = PyStr.endswith content "?".
Proof.
  unfold parse_hole.
  set (content' := if PyStr.endswith content "?" then removelast content else content).
  destruct (PyStr.split_once "~" content') as [[lhs rhs]|].
  - destruct (PyStr.truthy (PyStr.strip rhs)).
    + destruct (re_compile Py (PyStr.strip rhs)); [|done|done]. intros [= <-]. simpl.
      split_and!; [by left| |done|done].
      intros n Hn. by apply name_of_Some in Hn as (_ & ? & ?).
    + intros [= <-]. simpl. split_and!; [by left| |done|done].
      intros n Hn. by apply name_of_Some in Hn as (_ & ? & ?).
  - destruct (PyStr.split_once ":" content') as [[lhs rhs]|].
    + destruct (PyStr.strip rhs) as [|c m] eqn:Em.
      * intros [= <-]. simpl. split_and!; [by right| | |done].
        -- intros n Hn. by apply name_of_Some in Hn as (_ & ? & ?).
        -- intros m [= <-]. by left.
      * cbn [PyStr.truthy andb].
        destruct (bool_decide (is_Some (REGEX_MACROS (c :: m)))) eqn:Er;
          [|destruct (bool_decide (is_Some (STRUCTURAL_MACROS (c :: m)))) eqn:Es];
          try done; intros [= <-]; simpl; (split_and!; [by right| | |done]);
          try (intros n Hn; by apply name_of_Some in Hn as (_ & ? & ?)).
        -- intros m' [= <-]. right; left. by apply bool_decide_eq_true in Er.
        -- intros m' [= <-]. right; right. by apply bool_decide_eq_true in Es.
    + intros [= <-]. simpl. split_and!; [by left| |done|done].
      intros n Hn. by apply name_of_Some in Hn as (_ & ? & ?).
Qed.

(** X2.  Every hole [parse_hole] returns carries at most one constraint
    (never both a macro and a regex), a name that is neither empty nor
    [_], a macro that is empty or a key of one of the two tables, and the
    optional flag of the trailing [?] of its content. *)
Theorem parse_hole_invariants (Py : host) (content : str) (h : HoleToken) :
  parse_hole Py content = Ok h ->
  (hole_macro h = None \/ hole_regex h = None)
  /\ (forall n, hole_name h = Some n -> n <> [] /\ n <> py "_")
  /\ (forall m, hole_macro h = Some m ->
        m = [] \/ is_Some (REGEX_MACROS m) \/ is_Some (STRUCTURAL_MACROS m))
  /\ hole_optional h = PyStr.endswith content "?".
Proof. apply parse_hole_shape. Qed.

Lemma parse_hole_invariants_witness :
  (hole_macro {| hole_name := Some (py "x"); hole_macro := Some (py "digit");
                 hole_regex := None; hole_optional := true |} = None
   \/ hole_regex {| hole_name := Some (py "x"); hole_macro := Some (py "digit");
                    hole_regex := None; hole_optional := true |} = None)
  /\ true = PyStr.endswith (py "x:digit?") "?".
Proof.
  destruct (parse_hole_invariants Sample.host (py "x:digit?")
              {| hole_name := Some (py "x"); hole_macro := Some (py "digit");
                 hole_regex := None; hole_optional := true |})
    as (H1 & _ & _ & H4); [reflexivity|]. by split.
Defined.




Lemma segments_0 c (s lit : str) :
  segments (c :: s) lit 0
  = match bracket_at false (c :: s) with
    | Some content =>
        (if PyStr.truthy lit then [inl lit] else [])
          ++ inr content :: segments s [] (length content + 2)
    | None => segments s (lit ++ [c]) 0
    end.
Proof. reflexivity. Qed.

Lemma unsegment_segments (s : str) : forall lit skip,
  unsegment (segments s lit skip) = lit ++ drop skip s.
Proof.
  induction s as [|c s IH]; intros lit skip.
  - rewrite drop_nil, app_nil_r. unfold unsegment. simpl.
    destruct lit; [done|]. simpl. by rewrite app_nil_r.
  - destruct skip as [|k]; [|simpl; apply IH].
    rewrite segments_0, drop_0.
    destruct (bracket_at false (c :: s)) as [content|] eqn:E.
    + apply bracket_at_Some in E as [r E]. simpl in E. injection E as -> ->.
      unfold unsegment. rewrite fmap_app, concat_app. cbn [fmap list_fmap concat].
      fold (unsegment (segments ("["%char :: content ++ "]"%char :: r) []
                         (length content + 2))).
      rewrite IH.
      assert (drop (length content + 2) ("["%char :: content ++ "]"%char :: r) = r) as ->.
      { change ("["%char :: content ++ "]"%char :: r)
          with (("["%char :: content) ++ ["]"%char] ++ r).
        rewrite app_assoc. apply drop_app_length'.
        rewrite length_app. simpl. lia. }
      assert (concat ((fun seg : str + str =>
                         match seg with
                         | inl lit0 => lit0
                         | inr content0 => py ":[" ++ content0 ++ py "]"
                         end) <$> (if PyStr.truthy lit then [inl lit] else [])) = lit)
        as ->.
      { destruct lit; [done|]. simpl. by rewrite app_nil_r. }
      simpl. f_equal. by rewrite <- app_assoc.
    + rewrite IH, drop_0. by rewrite <- app_assoc.
Qed.

(** X4.  The segments [HOLE_RE.finditer] cuts a pattern into, literals as
    they are and holes between [:[] and []], concatenate back to the
    pattern: nothing is lost and nothing is read twice. *)
Theorem segments_partition (pattern : str) :
  unsegment (segments pattern [] 0) = pattern.
Proof. by rewrite unsegment_segments, drop_0. Qed.

Lemma relaxed_no_space lit s :
  relaxed lit s -> " "%char ∉ lit -> s = lit.
Proof.
  induction 1 as [|c lit s Hc _ IH|ws lit s _ _ _]; [done| |].
  - intros [_ Hn]%not_elem_of_cons. by rewrite IH.
  - intros Hn. exfalso. apply Hn. by left.
Qed.

Lemma run_literal_exact lit : forall (rest : str) k,
  " "%char ∉ lit ->
  Re.run (literal_re lit) (lit ++ rest) k = (fun n => length lit + n) <$> k rest.
Proof.
  induction lit as [|c lit IH]; intros rest k Hn.
  - simpl. by destruct (k rest).
  - apply not_elem_of_cons in Hn as [Hc Hn].
    change (literal_re (c :: lit))
      with (Re.Cat (if Char.eqb c " " then Re.Star Char.is_space else Re.Chr c)
                   (literal_re lit)).
    assert (Char.eqb c " " = false) as -> by (apply char_eqb_neq; congruence).
    cbn [Re.run app]. rewrite char_eqb_refl, IH by done.
    by destruct (k rest).
Qed.

Lemma make_literal_token_regex lit :
  lit_regex (make_literal_token lit) = literal_re lit.
Proof. by destruct lit. Qed.

(** X5.  A literal without spaces matches at [i] exactly when the text
    continues with the literal itself at [i], and the match ends right
    after it: regex metacharacters in a literal stand for themselves. *)
Theorem literal_matches_itself (lit text : str) (i e : nat) :
  " "%char ∉ lit -> i <= length text ->
  Re.match_at (lit_regex (make_literal_token lit)) text i = Some e
  <-> e = i + length lit /\ take (length lit) (drop i text) = lit.
Proof.
  intros Hn Hi. rewrite make_literal_token_regex. split.
  - intros Hm. pose proof (match_at_literal _ _ _ _ Hi Hm) as [Hb Hrel].
    apply relaxed_no_space in Hrel; [|done].
    assert (e - i = length lit) as Hlen.
    { apply (f_equal length) in Hrel. unfold PyStr.slice in Hrel.
      rewrite length_take, length_drop in Hrel. lia. }
    split; [lia|]. rewrite <- Hlen. exact Hrel.
  - intros [-> Ht]. unfold Re.match_at.
    rewrite <- (take_drop (length lit) (drop i text)), Ht.
    rewrite run_literal_exact by done. simpl. f_equal. lia.
Qed.

Lemma literal_matches_itself_witness :
  Re.match_at (lit_regex (make_literal_token (py "a.b"))) (py "xa.by") 1 = Some 4
  <-> 4 = 1 + length (py "a.b") /\ take (length (py "a.b")) (drop 1 (py "xa.by")) = py "a.b".
Proof.
  apply (literal_matches_itself (py "a.b") (py "xa.by") 1 4).
  - apply (bool_decide_unpack _). vm_compute. exact I.
  - simpl. lia.
Defined.

Lemma slice_lookup (text : str) i e k :
  k < e - i -> PyStr.slice text i e !! k = text !! (i + k).
Proof.
  intros Hk. unfold PyStr.slice. by rewrite lookup_take_lt, lookup_drop.
Qed.

(** X6.  A successful balanced scan for a macro of the table returns an
    end inside the text and at least two past the start, the text has the
    opening character at the start and the closing one just before the
    end, and the chunk is the text between them, with or without the two
    delimiters. *)
Theorem match_balanced_bounds (m : str) (o c : ascii) (inner_only : bool)
    (text : str) (i e : nat) (chunk : str) :
  STRUCTURAL_MACROS m = Some (o, c, inner_only) ->
  match_balanced text i o c inner_only = Some (e, chunk) ->
  i + 2 <= e <= length text
  /\ text !! i = Some o /\ text !! (e - 1) = Some c
  /\ chunk = (if inner_only then PyStr.slice text (i + 1) (e - 1)
              else PyStr.slice text i e).
Proof.
  intros Hm Hb.
  destruct (structural_delims _ _ _ _ Hm) as (Hoc & Hdq & Hsq & Hslash).
  destruct (match_balanced_region o c Hoc Hdq Hsq Hslash _ _ _ _ _ Hb)
    as (inner & -> & Hle & Hslice & -> & _).
  split_and!; [lia|lia| | |].
  - rewrite <- (Nat.add_0_r i) at 1.
    rewrite <- slice_lookup with (e := i + length inner + 2) by lia.
    by rewrite Hslice.
  - replace (i + length inner + 2 - 1) with (i + (length inner + 1)) by lia.
    rewrite <- slice_lookup with (e := i + length inner + 2) by lia.
    rewrite Hslice. change (o :: inner ++ [c]) with ((o :: inner) ++ [c]).
    by rewrite list_lookup_middle by (simpl; lia).
  - destruct inner_only; [|done].
    pose proof (take_drop (i + length inner + 2 - i) (drop i text)) as Htd.
    fold (PyStr.slice text i (i + length inner + 2)) in Htd. rewrite Hslice in Htd.
    unfold PyStr.slice.
    replace (drop (i + 1) text) with (drop 1 (drop i text))
      by (rewrite drop_drop; f_equal; lia).
    rewrite <- Htd. simpl. rewrite drop_0.
    replace (i + length inner + 2 - 1 - (i + 1)) with (length inner) by lia.
    by rewrite <- app_assoc, take_app_length.
Qed.

Lemma match_balanced_bounds_witness :
  2 + 2 <= 7 <= length (py "f([a]) x")
  /\ py "f([a]) x" !! 2 = Some "["%char /\ py "f([a]) x" !! (5 - 1) = Some "]"%char
  /\ py "a" = PyStr.slice (py "f([a]) x") (2 + 1) (5 - 1).
Proof.
  destruct (match_balanced_bounds (py "[_]") "[" "]" true (py "f([a]) x") 2 5 (py "a"))
    as (_ & H2 & H3 & H4); [reflexivity|reflexivity|].
  split_and!; [simpl; lia|simpl; lia|exact H2|exact H3|exact H4].
Defined.

Lemma match_balanced_at (pre tail : str) o c inner_only :
  match_balanced (pre ++ o :: tail) (length pre) o c inner_only
  = match scan_loop o c tail (length pre + 1) scan_init with
    | None => None
    | Some e =>
        Some (e, if inner_only
                 then take (e - 1 - (length pre + 1)) tail
                 else take (e - length pre) (o :: tail))
    end.
Proof.
  unfold match_balanced. rewrite list_lookup_middle by done.
  rewrite char_eqb_refl. cbn [negb].
  assert (drop (length pre + 1) (pre ++ o :: tail) = tail) as Hd.
  { rewrite (cons_middle o), app_assoc. apply drop_app_length'.
    rewrite length_app. simpl. lia. }
  rewrite Hd. destruct (scan_loop o c tail (length pre + 1) scan_init) as [e|]; [|done].
  unfold PyStr.slice. rewrite Hd, drop_app_length.
  by destruct inner_only.
Qed.

Section PlainScan.

Variables open_ch close_ch : ascii.

Lemma scan_step_plain ch nxt st :
  scanner_normal st -> scanner_plain open_ch close_ch ch = true ->
  scan_step open_ch close_ch ch nxt st = Skip1 st.
Proof.
  intros (Hs & Hl & Hb). unfold scanner_plain, is_delim.
  rewrite !andb_true_iff, !negb_true_iff, orb_false_iff.
  intros [[[[Ho Hc] Hdq] Hsq] Hsl].
  unfold scan_step. by rewrite Hs, Hl, Hb, Hsl, Hdq, Hsq, Ho, Hc.
Qed.

Lemma scan_loop_plain (s rest : str) i st :
  scanner_normal st -> Forall (fun ch => scanner_plain open_ch close_ch ch = true) s ->
  scan_loop open_ch close_ch (s ++ rest) i st
  = scan_loop open_ch close_ch rest (i + length s) st.
Proof.
  intros Hn Hs. revert i. induction Hs as [|ch s Hch _ IH]; intros i.
  - simpl. f_equal. lia.
  - cbn [app scan_loop]. rewrite scan_step_plain by done.
    rewrite IH. f_equal. simpl. lia.
Qed.

Lemma scan_in_string_None q n : forall rest i st,
  length rest <= n -> in_string st = Some q -> q ∉ rest ->
  scan_loop open_ch close_ch rest i st = None.
Proof.
  induction n as [|n IH]; intros rest i st Hlen Hq Hnot;
    (destruct rest as [|ch t]; [done|]); [simpl in Hlen; lia|].
  simpl in Hlen. apply not_elem_of_cons in Hnot as [Hne Hnot].
  cbn [scan_loop]. unfold scan_step. rewrite Hq.
  destruct (Char.eqb ch "\") eqn:Eb.
  - destruct t as [|d t']; [done|]. apply not_elem_of_cons in Hnot as [_ Hnot].
    apply IH; [simpl in Hlen; lia|done|done].
  - assert (Char.eqb ch q = false) as -> by (apply char_eqb_neq; congruence).
    apply IH; [lia|done|done].
Qed.

End PlainScan.

(** X7.  On an opening character followed by characters that are neither
    delimiters, quotes nor slashes and then by the closing character, the
    scan succeeds at that closing character, whatever comes before and
    after. *)
Theorem match_balanced_plain (m : str) (o c : ascii) (inner_only : bool)
    (pre s post : str) :
  STRUCTURAL_MACROS m = Some (o, c, inner_only) ->
  Forall (fun ch => scanner_plain o c ch = true) s ->
  match_balanced (pre ++ o :: s ++ c :: post) (length pre) o c inner_only
  = Some (length pre + length s + 2, if inner_only then s else o :: s ++ [c]).
Proof.
  intros Hm Hs. rewrite match_balanced_at.
  rewrite scan_loop_plain; [|done|done].
  assert (scan_loop o c (c :: post) (length pre + 1 + length s) scan_init
          = Some (length pre + 1 + length s + 1)) as ->.
  { by destruct (structural_table _ _ _ _ Hm) as [[-> ->]|[[-> ->]|[-> ->]]]. }
  f_equal. f_equal; [lia|]. destruct inner_only.
  - replace (length pre + 1 + length s + 1 - 1 - (length pre + 1)) with (length s) by lia.
    by rewrite take_app_length.
  - replace (length pre + 1 + length s + 1 - length pre) with (S (length s + 1)) by lia.
    simpl. f_equal. rewrite (cons_middle c), app_assoc.
    apply take_app_length'. rewrite length_app. simpl. lia.
Qed.

Lemma match_balanced_plain_witness :
  match_balanced (py "f" ++ "("%char :: py "a, b" ++ ")"%char :: py ";")
    (length (py "f")) "(" ")" false
  = Some (length (py "f") + length (py "a, b") + 2, "("%char :: py "a, b" ++ [")"%char]).
Proof.
  apply (match_balanced_plain (py "()") "(" ")" false (py "f") (py "a, b") (py ";")).
  - reflexivity.
  - repeat constructor.
Defined.

(** X8.  A quote that is opened inside the region and never closed makes
    the scan fail, whatever delimiters follow it. *)
Theorem match_balanced_unterminated_string (o c q : ascii) (inner_only : bool)
    (pre s rest : str) :
  q = dquote \/ q = "'"%char ->
  Forall (fun ch => scanner_plain o c ch = true) s ->
  q ∉ rest ->
  match_balanced (pre ++ o :: s ++ q :: rest) (length pre) o c inner_only = None.
Proof.
  intros Hq Hs Hnot. rewrite match_balanced_at.
  rewrite scan_loop_plain; [|done|done].
  assert (scan_step o c q (head rest) scan_init = Skip1 (set_in_string (Some q) scan_init))
    as Hstep.
  { unfold scan_step. cbn [in_string in_line_comment in_block_comment scan_init].
    destruct Hq as [-> | ->]; reflexivity. }
  cbn [scan_loop]. rewrite Hstep.
  by rewrite (scan_in_string_None o c q (length rest)).
Qed.

Lemma match_balanced_unterminated_string_witness :
  match_balanced (py "f" ++ "("%char :: py "a, " ++ "'"%char :: py "b) c)")
    (length (py "f")) "(" ")" false = None.
Proof.
  apply (match_balanced_unterminated_string "(" ")" "'" false (py "f") (py "a, ") (py "b) c)")).
  - by right.
  - repeat constructor.
  - apply (bool_decide_unpack _). vm_compute. exact I.
Defined.

(** X9.  The span of a match of a compiled pattern lies inside the text:
    [start <= end <= len(text)]. *)
Theorem match_first_span (Py : host) (text pattern : str) (tokens : list Token)
    (s e : nat) (captures : caps) :
  compile_pattern Py pattern = Ok tokens ->
  match_first text tokens = (true, (s, e), captures) ->
  s <= e <= length text.
Proof.
  intros Hc [Hs Hm]%match_first_true.
  apply tokens_of_compiled in Hc. unfold match_from in Hm. rewrite drop_0 in Hm.
  by apply match_rest_pieces in Hm as (pieces & _ & _ & Hb & _).
Qed.

Lemma match_first_span_witness : 2 <= 4 <= length (py "a 42 b").
Proof.
  apply (match_first_span Sample.host (py "a 42 b") (py ":[n:digit]")
           [Hole {| hole_name := Some (py "n"); hole_macro := Some (py "digit");
                    hole_regex := None; hole_optional := false |}]
           2 4 {[ py "n" := Some (py "42") ]}); vm_compute; reflexivity.
Defined.

Lemma tokens_of_named Py segs tokens :
  tokens_of Py segs = Ok tokens -> Forall named_token tokens.
Proof.
  revert tokens. induction segs as [|[lit|content] segs IH]; intros tokens; simpl.
  - intros [= <-]. constructor.
  - destruct (tokens_of Py segs) as [ts|]; [|done]. intros [= <-].
    constructor; [done|by apply IH].
  - destruct (parse_hole Py content) as [h|] eqn:Eh; [|done].
    destruct (tokens_of Py segs) as [ts|]; [|done]. intros [= <-].
    constructor; [|by apply IH].
    intros n Hn. by apply (parse_hole_shape _ _ _ Eh) in Hn as [? _].
Qed.

Lemma dom_record (tok : Token) (p : piece) (captures : caps) :
  piece_for tok p -> named_token tok ->
  dom (record tok p captures)
  =@{gset str} dom captures ∪ match token_name tok with Some n => {[n]} | None => ∅ end.
Proof.
  destruct tok as [l|h], p as [s|s v]; simpl; try done.
  - intros _ _. set_solver.
  - unfold named_token. simpl. intros Hp Hn.
    destruct (macro_in STRUCTURAL_MACROS (hole_macro h)) as [[[o c] io]|] eqn:Es.
    + destruct Hp as (inner & -> & ->).
      rewrite (bool_decide_eq_true_2 _ (mk_is_Some _ _ eq_refl)).
      unfold bind_truthy. destruct (hole_name h) as [n|]; [|set_solver].
      destruct n as [|a n]; [by destruct (Hn [] eq_refl)|]. simpl.
      rewrite dom_insert_L. set_solver.
    + destruct Hp as [(-> & _ & _)|(_ & -> & ->)].
      * rewrite (bool_decide_eq_false_2 _ (@is_Some_None _)).
        unfold bind. destruct (hole_name h) as [n|]; [|set_solver].
        rewrite dom_insert_L. set_solver.
      * unfold bind_none. destruct (hole_name h) as [n|]; [|set_solver].
        destruct (captures !! n) eqn:El.
        -- apply (elem_of_dom_2 (D := gset str)) in El. set_solver.
        -- rewrite dom_insert_L. set_solver.
Qed.

Lemma hole_names_cons (tok : Token) (tokens : list Token) :
  hole_names (tok :: tokens)
  = match token_name tok with Some n => {[n]} | None => ∅ end ∪ hole_names tokens.
Proof.
  unfold hole_names. simpl. destruct (token_name tok); simpl; set_solver.
Qed.

Lemma dom_replay (tokens : list Token) (pieces : list piece) : forall captures : caps,
  Forall2 piece_for tokens pieces -> Forall named_token tokens ->
  dom (replay tokens pieces captures) =@{gset str} dom captures ∪ hole_names tokens.
Proof.
  intros captures Hp. revert captures.
  induction Hp as [|tok p tokens pieces Hp _ IH]; intros captures Hn.
  - simpl. unfold hole_names. simpl. set_solver.
  - apply Forall_cons in Hn as [Hn Hns]. cbn [replay].
    rewrite IH, dom_record, hole_names_cons by done. set_solver.
Qed.

(** X10.  The bindings of a match of a compiled pattern have exactly the
    names of the holes of the pattern as keys: every named hole has an
    entry (none for a skipped optional hole) and anonymous holes leave
    none. *)
Theorem bindings_domain (Py : host) (text pattern : str) (tokens : list Token)
    (s e : nat) (captures : caps) :
  compile_pattern Py pattern = Ok tokens ->
  match_first text tokens = (true, (s, e), captures) ->
  dom captures = hole_names tokens.
Proof.
  intros Hc [Hs Hm]%match_first_true.
  pose proof (tokens_of_named _ _ _ Hc) as Hn.
  apply tokens_of_compiled in Hc. unfold match_from in Hm. rewrite drop_0 in Hm.
  apply match_rest_pieces in Hm as (pieces & Hp & _ & _ & ->); [|done|done].
  rewrite dom_replay by done. set_solver.
Qed.

Lemma bindings_domain_witness :
  dom ({[ py "n" := Some (py "42") ]} : caps)
  = hole_names
      [Hole {| hole_name := None; hole_macro := None;
               hole_regex := None; hole_optional := false |};
       Hole {| hole_name := Some (py "n"); hole_macro := Some (py "digit");
               hole_regex := None; hole_optional := false |}].
Proof.
  apply (bindings_domain Sample.host (py "a 42 b") (py ":[_]:[n:digit]")
           [Hole {| hole_name := None; hole_macro := None;
                    hole_regex := None; hole_optional := false |};
            Hole {| hole_name := Some (py "n"); hole_macro := Some (py "digit");
                    hole_regex := None; hole_optional := false |}]
           0 4 {[ py "n" := Some (py "42") ]}); vm_compute; reflexivity.
Defined.

Lemma for_first_prefix {A B} (body : A -> option B) l r :
  for_first body l = Some r ->
  exists l1 x l2,
    l = l1 ++ x :: l2 /\ body x = Some r /\ Forall (fun y => body y = None) l1.
Proof.
  induction l as [|a l IH]; simpl; [done|].
  destruct (body a) as [r'|] eqn:E.
  - intros [= ->]. by exists [], a, l.
  - intros (l1 & x & l2 & -> & Hx & Hl1)%IH.
    exists (a :: l1), x, l2. split_and!; [done|done|by constructor].
Qed.

(** X11.  [match_first] returns the leftmost match: the token sequence
    matches from no anchor before the start it returns. *)
Theorem match_first_leftmost (text : str) (tokens : list Token)
    (s e : nat) (captures : caps) :
  match_first text tokens = (true, (s, e), captures) ->
  forall s', s' < s -> (match_from text tokens 0 s' ∅).1.1 = false.
Proof.
  unfold match_first. set (body := fun start : nat => _).
  destruct (for_first body (seq 0 (length text + 1))) as [r|] eqn:Ef; [|done].
  intros ->. apply for_first_prefix in Ef as (l1 & x & l2 & Hl & Hx & Hl1).
  assert (x = length l1) as ->.
  { assert (seq 0 (length text + 1) !! length l1 = Some x) as Hlk
      by (rewrite Hl; by apply list_lookup_middle).
    apply lookup_seq in Hlk. lia. }
  assert (s = length l1) as ->.
  { unfold body in Hx.
    destruct (match_from text tokens 0 (length l1) ∅) as [[[] ?] ?]; [|done].
    by injection Hx as <- _ _. }
  intros s' Hs'.
  assert (l1 !! s' = Some s') as Hlk.
  { assert (seq 0 (length text + 1) !! s' = Some s') as Hlk'.
    { apply lookup_seq. split; [done|].
      apply (f_equal length) in Hl. rewrite length_seq, length_app in Hl.
      simpl in Hl. lia. }
    rewrite Hl, lookup_app_l in Hlk' by done. done. }
  rewrite Forall_lookup in Hl1. specialize (Hl1 _ _ Hlk). unfold body in Hl1.
  by destruct (match_from text tokens 0 s' ∅) as [[[] ?] ?].
Qed.

Lemma match_first_leftmost_witness :
  (match_from (py "a 42 b")
     [Hole {| hole_name := Some (py "n"); hole_macro := Some (py "digit");
              hole_regex := None; hole_optional := false |}] 0 1 ∅).1.1 = false.
Proof.
  apply (match_first_leftmost (py "a 42 b")
           [Hole {| hole_name := Some (py "n"); hole_macro := Some (py "digit");
                    hole_regex := None; hole_optional := false |}]
           2 4 {[ py "n" := Some (py "42") ]}); [vm_compute; reflexivity|lia].
Defined.

(** X12.  Rendered against the empty dictionary, a template comes back
    unchanged, placeholders included. *)
Theorem render_template_no_bindings (Py : host) (template : str) :
  render_template Py template ∅ = template.
Proof. apply render_template_empty. Qed.

(** X13.  Chained operations compose: applying [ops1 ++ ops2] is applying
    [ops1] and then [ops2] to its result, and fails when either does. *)
Theorem apply_ops_app (Py : host) (ops1 ops2 : list str) (v : str) :
  apply_ops Py (ops1 ++ ops2) v
  = match apply_ops Py ops1 v with
    | Some v1 => apply_ops Py ops2 v1
    | None => None
    end.
Proof.
  rewrite !apply_ops_fold, fold_ops_app.
  destruct (fold_ops Py ops1 v); [|done]. by rewrite apply_ops_fold.
Qed.

Lemma lskip_id (s : str) :
  Forall (fun c => Ops.is_c_space c = false) s -> Ops.lskip s = s.
Proof. destruct 1 as [|c s Hc _]; [done|]. simpl. by rewrite Hc. Qed.

Lemma skip_spaces_id (s : str) :
  Forall (fun c => Ops.is_c_space c = false) s -> Ops.skip_spaces s = s.
Proof.
  intros Hs. unfold Ops.skip_spaces. rewrite (lskip_id s Hs).
  rewrite lskip_id by (by apply Forall_rev). apply rev_involutive.
Qed.

Lemma digit_not_c_space c : Char.is_digit c = true -> Ops.is_c_space c = false.
Proof.
  unfold Char.is_digit, Ops.is_c_space, Char.in_range.
  rewrite andb_true_iff, !Nat.leb_le. intros [H1 H2].
  apply orb_false_iff. split.
  - apply andb_false_iff. right. apply Nat.leb_gt. lia.
  - apply Nat.eqb_neq. lia.
Qed.

Lemma count_digits_all (s : str) :
  Forall (fun c => Char.is_digit c = true) s -> Ops.count_digits s = length s.
Proof.
  unfold Ops.count_digits. induction 1 as [|c s Hc _ IH]; [done|].
  simpl. rewrite Hc. simpl. by rewrite IH.
Qed.

Lemma count_digits_le (s : str) : Ops.count_digits s <= length s.
Proof.
  unfold Ops.count_digits. induction s as [|c s IH]; [done|].
  simpl. destruct (Char.is_digit c); simpl; lia.
Qed.

Lemma digits_all (s : str) : forall acc after_digit,
  Forall (fun c => Char.is_digit c = true) s ->
  (0 <= acc)%Z -> (s <> [] \/ after_digit = true) ->
  exists z, Ops.digits s acc after_digit = Some z /\ (0 <= z)%Z.
Proof.
  induction s as [|c s IH]; intros acc after_digit Hs Hacc Hne.
  - destruct Hne as [Hne | ->]; [done|]. by exists acc.
  - apply Forall_cons in Hs as [Hc Hs]. simpl. rewrite Hc.
    apply IH; [done|lia|by right].
Qed.

(** X14.  On a non-empty string of decimal digits, leading zeros included,
    [int] raises exactly when the string is longer than the limit on
    integer string conversion allows, and otherwise returns a number that
    is not negative: within the limit, [inc] and [dec] do not fail to read
    what a hole made of digits captured. *)
Theorem int_of_digits (limit : nat) (s : str) :
  Forall (fun c => Char.is_digit c = true) s -> s <> [] ->
  if Ops.over_limit limit (length s) then Ops.int limit s = None
  else exists z, Ops.int limit s = Some z /\ (0 <= z)%Z.
Proof.
  intros Hs Hne. unfold Ops.int.
  rewrite skip_spaces_id by (eapply Forall_impl; [exact Hs|apply digit_not_c_space]).
  destruct s as [|c t]; [done|].
  pose proof (Forall_inv Hs) as Hc. simpl in Hc.
  assert (Char.eqb c "-" = false) as ->.
  { apply char_eqb_neq. intros ->. discriminate. }
  assert (Char.eqb c "+" = false) as ->.
  { apply char_eqb_neq. intros ->. discriminate. }
  cbn [orb]. rewrite (count_digits_all _ Hs).
  destruct (Ops.over_limit limit (length (c :: t))); [done|].
  apply digits_all; [done|lia|by left].
Qed.

Lemma int_of_digits_witness :
  exists z, Ops.int 4300 (py "007") = Some z /\ (0 <= z)%Z.
Proof.
  apply (int_of_digits 4300 (py "007")); [repeat constructor|discriminate].
Defined.

(** [int] skips the whitespace of C at both ends, not the separators
    FS..US that [str.strip] removes, and reads a sign and underscores
    between digits. *)
Example int_skips_c_whitespace :
  Ops.int 4300 ("009"%char :: "010"%char :: "011"%char :: "012"%char
                  :: "013"%char :: py " 7 ") = Some 7%Z
  /\ Ops.int 4300 ("028"%char :: py "7") = None
  /\ Ops.int 4300 (py "7" ++ ["031"%char]) = None
  /\ Ops.int 4300 (py "+1_0") = Some 10%Z
  /\ Ops.int 4300 (py "- 1") = None.
Proof. repeat split. Qed.

Lemma uint_chars_no_c_space u :
  Forall (fun c => Ops.is_c_space c = false) (uint_chars u).
Proof. induction u; constructor; done. Qed.

Lemma uint_chars_digits u :
  Forall (fun c => Char.is_digit c = true) (uint_chars u).
Proof. induction u; constructor; done. Qed.

Lemma digits_acc u : forall acc,
  Ops.digits (uint_chars u) (Zpos acc) true = Some (Zpos (Pos.of_uint_acc u acc)).
Proof.
  unfold uint_chars.
  induction u as [|u IH|u IH|u IH|u IH|u IH|u IH|u IH|u IH|u IH|u IH]; intros acc;
    [done|..]; cbn [NilEmpty.string_of_uint list_ascii_of_string Ops.digits];
    change (Char.is_digit _) with true; cbv iota;
    cbn [Pos.of_uint_acc];
    match goal with
    | |- Ops.digits _ ?a true = Some (Zpos (Pos.of_uint_acc _ ?b)) =>
        replace a with (Zpos b) by (vm_compute (Z.of_nat _); lia)
    end; apply IH.
Qed.

Lemma digits_0 u :
  Ops.digits (uint_chars u) 0 true = Some (Z.of_N (Pos.of_uint u)).
Proof.
  unfold uint_chars.
  induction u as [|u IH|u IH|u IH|u IH|u IH|u IH|u IH|u IH|u IH|u IH];
    [done|exact IH|..];
    cbn [NilEmpty.string_of_uint list_ascii_of_string Ops.digits];
    change (Char.is_digit _) with true; cbv iota;
    cbn [Pos.of_uint Z.of_N];
    match goal with
    | |- Ops.digits _ ?a true = Some (Zpos (Pos.of_uint_acc _ ?b)) =>
        replace a with (Zpos b) by (vm_compute; reflexivity)
    end; apply digits_acc.
Qed.

Lemma digits_start u :
  u <> Decimal.Nil ->
  Ops.digits (uint_chars u) 0 false = Ops.digits (uint_chars u) 0 true.
Proof. by destruct u. Qed.

Lemma uint_chars_head u :
  u <> Decimal.Nil ->
  exists c t, uint_chars u = c :: t /\ Char.eqb c "-" = false /\ Char.eqb c "+" = false.
Proof. destruct u; [done|..]; intros _; by eexists _, _. Qed.

Lemma over_limit_le (limit n m : nat) :
  n <= m ->
  (640 <? m) && (0 <? limit) && (limit <? n) = false ->
  Ops.over_limit limit n = false.
Proof.
  unfold Ops.over_limit. intros Hle.
  destruct (Nat.ltb_spec 640 m), (Nat.ltb_spec 640 n), (Nat.ltb_spec 0 limit),
    (Nat.ltb_spec limit n); simpl; try done; lia.
Qed.

(** Reading the decimal notation of [z] gives [z] back, unless the notation
    is over the limit. *)
Lemma int_decimal (limit : nat) (z : Z) :
  (640 <? length (Ops.decimal z)) && (0 <? limit)
    && (limit <? Ops.count_digits (Ops.decimal z)) = false ->
  Ops.int limit (Ops.decimal z) = Some z.
Proof.
  destruct z as [|p|p]; [done| |].
  - unfold Ops.decimal. cbn [Z.to_int NilZero.string_of_int].
    pose proof (DecimalPos.Unsigned.to_uint_nonnil p) as Hnn.
    assert (NilZero.string_of_uint (Pos.to_uint p)
            = NilEmpty.string_of_uint (Pos.to_uint p)) as ->
      by (by destruct (Pos.to_uint p)).
    fold (uint_chars (Pos.to_uint p)). intros Hlim.
    apply (over_limit_le _ _ _ (count_digits_le _)) in Hlim.
    unfold Ops.int. rewrite skip_spaces_id by apply uint_chars_no_c_space.
    destruct (uint_chars_head _ Hnn) as (c & t & Hct & Hm & Hp).
    rewrite Hct in *. cbv iota. rewrite Hm, Hp. cbn [orb]. rewrite Hlim.
    rewrite <- Hct.
    rewrite digits_start, digits_0, DecimalPos.Unsigned.of_to by done. done.
  - unfold Ops.decimal. cbn [Z.to_int NilZero.string_of_int].
    pose proof (DecimalPos.Unsigned.to_uint_nonnil p) as Hnn.
    assert (NilZero.string_of_uint (Pos.to_uint p)
            = NilEmpty.string_of_uint (Pos.to_uint p)) as ->
      by (by destruct (Pos.to_uint p)).
    cbn [list_ascii_of_string]. fold (uint_chars (Pos.to_uint p)). intros Hlim.
    assert (Ops.count_digits ("-"%char :: uint_chars (Pos.to_uint p))
            = Ops.count_digits (uint_chars (Pos.to_uint p))) as Hcount by done.
    rewrite Hcount in Hlim.
    apply over_limit_le in Hlim;
      [|pose proof (count_digits_le (uint_chars (Pos.to_uint p))); simpl; lia].
    unfold Ops.int.
    rewrite skip_spaces_id by (constructor; [done|apply uint_chars_no_c_space]).
    rewrite char_eqb_refl. cbn [orb]. rewrite Hlim.
    rewrite digits_start, digits_0, DecimalPos.Unsigned.of_to by done. done.
Qed.

Lemma str_of_int_Some (limit : nat) (z : Z) (s : str) :
  Ops.str_of_int limit z = Some s ->
  s = Ops.decimal z /\ Ops.int limit s = Some z.
Proof.
  unfold Ops.str_of_int. cbv zeta.
  destruct ((640 <? length (Ops.decimal z)) && (0 <? limit)
            && (limit <? Ops.count_digits (Ops.decimal z))) eqn:E; [done|].
  intros [= <-]. split; [done|]. by apply int_decimal.
Qed.

(** X15.  [int(str(z)) == z] whenever [str(z)] is within the limit on
    integer string conversion, so that [dec] undoes [inc] on a rendered
    integer; the chain [inc], [dec] fails on it exactly when the successor
    is over the limit. *)
Theorem int_str_round_trip (Py : host) (z : Z) (s : str) :
  Ops.str_of_int (int_max_str_digits Py) z = Some s ->
  Ops.int (int_max_str_digits Py) s = Some z
  /\ apply_ops Py [py "inc"; py "dec"] s
     = match Ops.str_of_int (int_max_str_digits Py) (z + 1) with
       | Some _ => Some s
       | None => None
       end.
Proof.
  intros Hs. pose proof Hs as [_ Hrt]%str_of_int_Some.
  split; [done|].
  cbn [apply_ops]. change (OPERATIONS Py (py "inc"))
    with (Some (fun v =>
                  match Ops.int (int_max_str_digits Py) v with
                  | Some z => Ops.str_of_int (int_max_str_digits Py) (z + 1)
                  | None => None
                  end)).
  change (OPERATIONS Py (py "dec"))
    with (Some (fun v =>
                  match Ops.int (int_max_str_digits Py) v with
                  | Some z => Ops.str_of_int (int_max_str_digits Py) (z - 1)
                  | None => None
                  end)).
  cbv beta iota. rewrite Hrt.
  destruct (Ops.str_of_int (int_max_str_digits Py) (z + 1)) as [s1|] eqn:E1; [|done].
  apply str_of_int_Some in E1 as [_ ->].
  replace (z + 1 - 1)%Z with z by lia. by rewrite Hs.
Qed.

Lemma int_str_round_trip_witness :
  Ops.int 4300 (py "-42") = Some (-42)%Z
  /\ apply_ops Sample.host [py "inc"; py "dec"] (py "-42") = Some (py "-42").
Proof.
  apply (int_str_round_trip Sample.host (-42)%Z (py "-42")). reflexivity.
Defined.

Lemma match_first_bounds (text : str) (tokens : list Token) (s e : nat)
    (captures : caps) :
  Forall compiled_token tokens ->
  match_first text tokens = (true, (s, e), captures) ->
  s <= e <= length text.
Proof.
  intros Hc [Hs Hm]%match_first_true.
  unfold match_from in Hm. rewrite drop_0 in Hm.
  by apply match_rest_pieces in Hm as (pieces & _ & _ & Hb & _).
Qed.

(** X16.  When the pattern has no match in the text, [pycomby] returns
    the empty list in query mode and the text unchanged in replace mode,
    after a single search. *)
Theorem pycomby_no_match (Py : host) (fuel : nat) (text pattern : str)
    (tokens : list Token) :
  compile_pattern Py pattern = Ok tokens ->
  (match_first text tokens).1.1 = false ->
  pycomby Py fuel text pattern None = Ok (Some (PyList []))
  /\ (forall replacement,
        pycomby Py fuel text pattern (Some replacement) = Ok (Some (PyStr text))).
Proof.
  intros Hc Hm. apply match_first_false in Hm.
  unfold pycomby. rewrite Hc. destruct tokens as [|tok tokens]; [done|].
  assert (forall replacement,
            loop_body Py (tok :: tokens) replacement
              {| all_captures := []; result_text := text; offset := 0 |} = None) as Hb.
  { intros r. unfold loop_body. cbn [offset result_text]. by rewrite drop_0, Hm. }
  split; [|intros r]; destruct fuel; simpl; by rewrite Hb.
Qed.

Lemma pycomby_no_match_witness :
  pycomby Sample.host 0 (py "abc") (py "x") None = Ok (Some (PyList []))
  /\ (forall replacement,
        pycomby Sample.host 0 (py "abc") (py "x") (Some replacement)
        = Ok (Some (PyStr (py "abc")))).
Proof.
  apply (pycomby_no_match Sample.host 0 (py "abc") (py "x")
           [Literal (make_literal_token (py "x"))]); vm_compute; reflexivity.
Defined.

(** A pattern that starts with a literal whose first character is not a
    space has no zero-width match. *)
Lemma literal_first_no_empty_match (l : LiteralToken) (rest : list Token) c lit :
  Forall compiled_token (Literal l :: rest) ->
  lit_text l = c :: lit -> c <> " "%char ->
  no_empty_match (Literal l :: rest).
Proof.
  intros Hc Hl Hsp text s e captures [Hs Hm]%match_first_true.
  unfold match_from in Hm. rewrite drop_0 in Hm.
  apply match_rest_pieces in Hm as (pieces & Hp & Hcat & Hb & _); [|done|done].
  apply Forall2_cons_inv_l in Hp as (p & pieces' & Hp & _ & ->).
  destruct p as [s0|]; [|done]. simpl in Hp. rewrite Hl in Hp.
  inversion Hp as [|c' lit' s1 _ _ Heq1 Heq2|]; subst; [|done].
  cbn [fmap list_fmap concat consumed_of] in Hcat.
  apply (f_equal length) in Hcat. unfold PyStr.slice in Hcat.
  rewrite length_take in Hcat. simpl in Hcat. lia.
Qed.

Section Termination.

Variable Py : host.
Variable tokens : list Token.
Hypothesis Hcompiled : Forall compiled_token tokens.

Lemma loop_query_terminates :
  (match_first [] tokens).1.1 = false ->
  forall fuel st,
    length (result_text st) - offset st <= fuel ->
    exists st',
      loop Py fuel tokens None st = Some st'
      /\ length (all_captures st')
         <= length (all_captures st) + (length (result_text st) - offset st).
Proof using Hcompiled.
  intros Hempty fuel. induction fuel as [|fuel IH]; intros st Hfuel.
  all: cbn [loop]; unfold loop_body;
    destruct (match_first (drop (offset st) (result_text st)) tokens)
      as [[ok [s e]] captures] eqn:Em;
    destruct ok; cbn [negb]; [|exists st; split; [done|lia]].
  all: assert (offset st < length (result_text st)) as Hlt
      by (destruct (decide (offset st < length (result_text st))) as [|Hge]; [done|];
          rewrite drop_ge in Em by lia; by rewrite Em in Hempty).
  - lia.
  - pose proof (match_first_bounds _ _ _ _ _ Hcompiled Em) as Hb.
    rewrite length_drop in Hb.
    edestruct IH as (st' & Hl & Hlen); [|exists st'; split; [exact Hl|]].
    + cbn [result_text offset]. destruct (e =? s) eqn:Ees; [lia|].
      apply Nat.eqb_neq in Ees. lia.
    + cbn [result_text offset all_captures] in Hlen. rewrite length_app in Hlen.
      simpl in Hlen. destruct (e =? s) eqn:Ees; [lia|].
      apply Nat.eqb_neq in Ees. lia.
Qed.

Lemma loop_replace_terminates replacement :
  no_empty_match tokens ->
  forall fuel st,
    length (result_text st) - offset st <= fuel ->
    exists st', loop Py fuel tokens (Some replacement) st = Some st'.
Proof using Hcompiled.
  intros Hne fuel. induction fuel as [|fuel IH]; intros st Hfuel.
  all: cbn [loop]; unfold loop_body;
    destruct (match_first (drop (offset st) (result_text st)) tokens)
      as [[ok [s e]] captures] eqn:Em;
    destruct ok; cbn [negb]; [|by exists st].
  all: pose proof (match_first_bounds _ _ _ _ _ Hcompiled Em) as Hb;
    rewrite length_drop in Hb; pose proof (Hne _ _ _ _ Em) as Hse.
  - lia.
  - apply IH. cbn [result_text offset].
    rewrite !length_app, length_take, length_drop. lia.
Qed.

End Termination.

(** X17.  In query mode [pycomby] terminates whenever the pattern does
    not match the empty text: [len(text)] further iterations are enough,
    and there are at most [len(text)] matches. *)
Theorem pycomby_query_terminates (Py : host) (fuel : nat) (text pattern : str)
    (tokens : list Token) :
  compile_pattern Py pattern = Ok tokens ->
  (match_first [] tokens).1.1 = false ->
  length text <= fuel ->
  exists matches,
    pycomby Py fuel text pattern None = Ok (Some (PyList matches))
    /\ length matches <= length text.
Proof.
  intros Hc Hempty Hfuel. unfold pycomby. rewrite Hc.
  destruct tokens as [|tok tokens]; [exists []; split; [done|simpl; lia]|].
  apply tokens_of_compiled in Hc.
  destruct (loop_query_terminates Py _ Hc Hempty fuel
              {| all_captures := []; result_text := text; offset := 0 |})
    as (st' & -> & Hlen); [simpl; lia|].
  exists (all_captures st'). split; [done|]. simpl in Hlen. lia.
Qed.

Lemma pycomby_query_terminates_witness :
  exists matches,
    pycomby Sample.host 7 (py "a1 b22") (py ":[n:digit]") None
    = Ok (Some (PyList matches))
    /\ length matches <= length (py "a1 b22").
Proof.
  apply (pycomby_query_terminates Sample.host 7 (py "a1 b22") (py ":[n:digit]")
           [Hole {| hole_name := Some (py "n"); hole_macro := Some (py "digit");
                    hole_regex := None; hole_optional := false |}]);
    [reflexivity|vm_compute; reflexivity|simpl; lia].
Defined.

(** X18.  In replace mode [pycomby] terminates whenever the pattern has
    no zero-width match: each replacement moves the offset past at least
    one character of the original text. *)
Theorem pycomby_replace_terminates (Py : host) (fuel : nat)
    (text pattern replacement : str) (tokens : list Token) :
  compile_pattern Py pattern = Ok tokens ->
  no_empty_match tokens ->
  length text <= fuel ->
  exists out, pycomby Py fuel text pattern (Some replacement) = Ok (Some (PyStr out)).
Proof.
  intros Hc Hne Hfuel. unfold pycomby. rewrite Hc.
  destruct tokens as [|tok tokens]; [by exists text|].
  apply tokens_of_compiled in Hc.
  destruct (loop_replace_terminates Py _ Hc replacement Hne fuel
              {| all_captures := []; result_text := text; offset := 0 |})
    as (st' & ->); [simpl; lia|].
  by exists (result_text st').
Qed.

Lemma pycomby_replace_terminates_witness :
  exists out,
    pycomby Sample.host 4 (py "abab") (py "a") (Some (py "aa")) = Ok (Some (PyStr out)).
Proof.
  apply (pycomby_replace_terminates Sample.host 4 (py "abab") (py "a") (py "aa")
           [Literal (make_literal_token (py "a"))]); [reflexivity| |simpl; lia].
  apply (literal_first_no_empty_match _ _ "a" []); [|reflexivity|discriminate].
  repeat constructor.
Defined.


Lemma for_first_None {A B} (body : A -> option B) l :
  for_first body l = None -> Forall (fun y => body y = None) l.
Proof.
  induction l as [|a l IH]; simpl; [constructor|].
  destruct (body a) eqn:E; [done|]. intros Hl. constructor; [done|by apply IH].
Qed.

(** X19.  For a hole that is not structural the first candidate end, in
    the order of [end_iter], whose slice passes the constraints and from
    which the rest matches decides the result; the optional skip (or the
    failure) is reached only when every candidate has been rejected. *)
Theorem hole_first_candidate_wins (text : str) (hole : HoleToken)
    (rest : list Token) (i : nat) (captures : caps) :
  macro_in STRUCTURAL_MACROS (hole_macro hole) = None ->
  (exists before end_ after,
      end_iter hole text i = before ++ end_ :: after
      /\ Forall (fun e' => candidate_ok text hole rest i captures e' = false) before
      /\ candidate_ok text hole rest i captures end_ = true
      /\ match_rest text (Hole hole :: rest) i captures
         = match_rest text rest end_
             (bind (hole_name hole) (PyStr.slice text i end_) captures))
  \/ (Forall (fun e' => candidate_ok text hole rest i captures e' = false)
        (end_iter hole text i)
      /\ match_rest text (Hole hole :: rest) i captures
         = if hole_optional hole
           then match_rest text rest i (bind_none (hole_name hole) captures)
           else (false, i, captures)).
Proof.
  intros Hs. pose proof (match_rest_hole text hole rest i captures Hs) as Heq.
  change (match_rest text (Hole hole :: rest) i captures
          = match for_first (hole_body text hole rest i captures) (end_iter hole text i) with
            | Some r => r
            | None =>
                if hole_optional hole
                then match_rest text rest i (bind_none (hole_name hole) captures)
                else (false, i, captures)
            end) in Heq.
  assert (forall e', hole_body text hole rest i captures e' = None ->
                     candidate_ok text hole rest i captures e' = false) as Hrej.
  { intros e'. unfold hole_body, candidate_ok.
    destruct (macro_ok hole (PyStr.slice text i e')); [|done].
    destruct (regex_ok hole (PyStr.slice text i e')); [|done]. simpl.
    by destruct (match_rest text rest e' _) as [[[] ?] ?]. }
  assert (forall e' r, hole_body text hole rest i captures e' = Some r ->
                       candidate_ok text hole rest i captures e' = true
                       /\ r = match_rest text rest e'
                                (bind (hole_name hole) (PyStr.slice text i e') captures))
    as Hacc.
  { intros e' r. unfold hole_body, candidate_ok.
    destruct (macro_ok hole (PyStr.slice text i e')); [|done].
    destruct (regex_ok hole (PyStr.slice text i e')); [|done]. simpl.
    destruct (match_rest text rest e' _) as [[[] ?] ?]; [|done].
    by intros [= <-]. }
  destruct (for_first (hole_body text hole rest i captures) (end_iter hole text i))
    as [r|] eqn:Ef.
  - left. apply for_first_prefix in Ef as (before & end_ & after & Hl & Hx & Hb).
    apply Hacc in Hx as [Hok ->].
    exists before, end_, after. split_and!; [done| |done|done].
    eapply Forall_impl; [exact Hb|]. exact Hrej.
  - right. split; [|done]. apply for_first_None in Ef.
    eapply Forall_impl; [exact Ef|]. exact Hrej.
Qed.

Lemma hole_first_candidate_wins_witness :
  exists before end_ after,
    end_iter {| hole_name := Some (py "n"); hole_macro := Some (py "digit");
                hole_regex := None; hole_optional := false |} (py "12a") 0
    = before ++ end_ :: after
    /\ end_ = 2.
Proof.
  destruct (hole_first_candidate_wins (py "12a")
              {| hole_name := Some (py "n"); hole_macro := Some (py "digit");
                 hole_regex := None; hole_optional := false |} [] 0 ∅ eq_refl)
    as [(before & end_ & after & Hl & Hb & Hok & _)|[Hall _]].
  - exists before, end_, after. split; [exact Hl|].
    change ([3; 2; 1] = before ++ end_ :: after) in Hl.
    destruct before as [|b0 before].
    + injection Hl as <- <-. vm_compute in Hok. discriminate.
    + injection Hl as <- Hl. destruct before as [|b1 before].
      * by injection Hl as <- <-.
      * injection Hl as <- Hl. apply Forall_inv_tail, Forall_inv in Hb.
        vm_compute in Hb. discriminate.
  - exfalso. apply Forall_inv_tail, Forall_inv in Hall. vm_compute in Hall. discriminate.
Defined.









Lemma replace_dots_id (s : str) : "."%char ∉ s -> replace_dots s = s.
Proof.
  induction s as [|c s IH]; [done|]. intros [Hc Hs]%not_elem_of_cons. simpl.
  assert (Char.eqb c "." = false) as -> by (apply char_eqb_neq; congruence).
  rewrite IH by done. by destruct s as [|? [|? ?]].
Qed.

Lemma segments_literal (s : str) : forall lit,
  ":"%char ∉ s -> lit ++ s <> [] -> segments s lit 0 = [inl (lit ++ s)].
Proof.
  induction s as [|c s IH]; intros lit Hc Hne.
  - rewrite app_nil_r in *. simpl. by destruct lit.
  - apply not_elem_of_cons in Hc as [Hc Hs]. rewrite segments_0.
    assert (bracket_at false (c :: s) = None) as ->.
    { unfold bracket_at. destruct s; [done|].
      assert (Char.eqb c ":" = false) as -> by (apply char_eqb_neq; congruence). done. }
    rewrite IH; [by rewrite <- app_assoc|done|]. by destruct lit.
Qed.

(** X22.  A non-empty pattern without [:] and [.] compiles, on any host,
    to the single literal token of the whole pattern. *)
Theorem compile_pattern_literal (Py : host) (pattern : str) :
  pattern <> [] -> ":"%char ∉ pattern -> "."%char ∉ pattern ->
  compile_pattern Py pattern = Ok [Literal (make_literal_token pattern)].
Proof.
  intros Hne Hc Hd. unfold compile_pattern.
  rewrite replace_dots_id by done. by rewrite segments_literal.
Qed.

Lemma compile_pattern_literal_witness :
  compile_pattern Sample.host (py "foo(bar)")
  = Ok [Literal (make_literal_token (py "foo(bar)"))].
Proof.
  apply (compile_pattern_literal Sample.host (py "foo(bar)"));
    [discriminate|apply (bool_decide_unpack _); vm_compute; exact I..].
Defined.
